(** * Omost layout conditioning: the occlusion masks of [calc_cond_mask]
    and the bag-of-subprompts encoding of [OmostLayoutCondNode]
    (src/omost_nodes.py). *)

From stdpp Require Import base numbers option list strings.

Local Open Scope Z_scope.

(** ** Exceptions *)

(** The Python exceptions the modelled functions can raise. *)
Inductive exn : Set :=
  | AssertionError
  | IndexError
  | KeyError
  | RuntimeError
  | ValueError
  | TypeError.

Inductive result (A : Type) : Type :=
  | Ok (a : A)
  | Raise (e : exn).
Arguments Ok {A} a.
Arguments Raise {A} e.

(** Sequencing: the first exception raised ends the computation.  The
    instances give [result] the notation [x ← m; k]. *)
Global Instance result_ret : MRet result := λ A a, Ok a.
Global Instance result_bind : MBind result := λ A B k m,
  match m with
  | Ok a => k a
  | Raise e => Raise e
  end.

(** [assert b] *)
Definition assert (b : bool) : result unit :=
  if b then Ok tt else Raise AssertionError.

(** ** Tensors *)

(** A 2-D float32 tensor, row major.  The only cell values [calc_cond_mask]
    ever produces are 0.0 and 1.0, and [1 - x], [x * y] and [x + y] are exact
    in float32 on such operands, so a cell is kept as the integer it holds. *)
Abbreviation Tensor := (list (list Z)).

Definition CANVAS_SIZE : nat := 90.

(** [torch.ones([h, w])] and [torch.zeros([h, w])] *)
Definition torch_ones (h w : nat) : Tensor := replicate h (replicate w 1).
Definition torch_zeros (h w : nat) : Tensor := replicate h (replicate w 0).

(** One bound of a Python slice with step 1 over a dimension of length
    [len]: a negative bound counts from the end, and the result is clamped
    to [0, len]. *)
Definition slice_bound (i : Z) (len : nat) : nat :=
  Z.to_nat (if bool_decide (i < 0) then Z.max 0 (i + Z.of_nat len) else Z.min i (Z.of_nat len)).

(** Whether index [i] of a dimension of length [len] is selected by the
    slice [start:stop]. *)
Definition in_slice (start stop : Z) (len i : nat) : bool :=
  bool_decide (slice_bound start len ≤ i < slice_bound stop len)%nat.

(** [t[a:b, c:d] = v] *)
Definition setitem_slice (t : Tensor) (a b c d : Z) (v : Z) : Tensor :=
  imap (λ i row,
    if in_slice a b (length t) i
    then imap (λ j x, if in_slice c d (length row) j then v else x) row
    else row) t.

(** [s - t] for a scalar [s], [t * u] and [t + u], cell by cell. *)
Definition rsub (s : Z) (t : Tensor) : Tensor :=
  (λ row : list Z, Z.sub s <$> row) <$> t.
Definition mul (t u : Tensor) : Tensor := zip_with (zip_with Z.mul) t u.
Definition add (t u : Tensor) : Tensor := zip_with (zip_with Z.add) t u.

(** The cell [t[x, y]], when it exists. *)
Definition cell (t : Tensor) (x y : nat) : option Z :=
  row ← t !! x; row !! y.

(** ** Regions *)

Definition Rect : Type := Z * Z * Z * Z.

(** Modelled from the spec: the declaration of [OmostCanvasCondition] is in
    lib_omost/canvas.py; the fields are the keys omost_nodes.py reads and
    writes, typed as the data model of the specification gives them.  The
    [mask] key is absent until it is assigned. *)
Record OmostCanvasCondition : Type := mkCond {
  rect : Rect;
  prefixes : list string;
  suffixes : list string;
  mask : option Tensor;
}.

(** Regions are Python dicts: a list of regions holds references, and
    assigning a key changes the dict for every holder of the reference. *)
Definition loc : Set := nat.
Definition store : Type := loc → OmostCanvasCondition.

(** [cond["mask"] = m] *)
Definition set_mask (r : OmostCanvasCondition) (m : Tensor) : OmostCanvasCondition :=
  {| rect := rect r; prefixes := prefixes r; suffixes := suffixes r;
     mask := Some m |}.

Definition setitem_mask (st : store) (l : loc) (m : Tensor) : store :=
  λ l', if decide (l' = l) then set_mask (st l) m else st l'.

(** ** [calc_cond_mask] *)

(** The body of the loop over the non-global regions: the state is the
    store together with [canvas_state]. *)
Definition mask_step (acc : store * Tensor) (canvas_cond : loc) : store * Tensor :=
  let '(st, canvas_state) := acc in
  let '(a, b, c, d) := rect (st canvas_cond) in
  let mask := torch_zeros CANVAS_SIZE CANVAS_SIZE in
  let mask := setitem_slice mask a b c d 1 in
  let mask := mul mask (rsub 1 canvas_state) in
  let canvas_state := add canvas_state mask in
  (setitem_mask st canvas_cond mask, canvas_state).

Definition calc_cond_mask (st : store) (canvas_conds : list loc)
    : result (store * list loc) :=
  _ ← assert (bool_decide (0 < length canvas_conds)%nat);
  match canvas_conds with
  | [] => Raise IndexError
  | global_cond :: _ =>
      let st := setitem_mask st global_cond (torch_ones CANVAS_SIZE CANVAS_SIZE) in
      let canvas_state := torch_zeros CANVAS_SIZE CANVAS_SIZE in
      let '(st, _) :=
        foldl mask_step (st, canvas_state) (reverse (drop 1 canvas_conds)) in
      Ok (st, canvas_conds)
  end.

(** ** [encode_bag_of_subprompts] and [layout_cond] *)

Section Conditioning.

(** The collaborators of the host are left uninterpreted: the CLIP model,
    the token embeddings and the pooled output it yields, the strengths, and
    the conditioning entries [ConditioningSetMask] builds. *)
Context {CLIP tensor pooled strength area_cond : Type}.

(** A conditioning is a list of pairs [[cond, {"pooled_output": p}]]. *)
Definition ComfyUIConditioning : Type := list (tensor * pooled).

(** [self.clip_text_encode_node.encode(clip, text)[0]] *)
Variable clip_text_encode : CLIP → string → list (tensor * pooled).
(** [torch.cat(tensors, dim=1)], which may raise *)
Variable torch_cat : list tensor → result tensor.
(** [self.cond_set_mask_node.append(cond, mask=.., set_cond_area="default",
    strength=..)[0]] *)
Variable cond_set_mask : list (tensor * pooled) → Tensor → strength → list area_cond.

(** The loop over [suffixes], with [conds] as its state. *)
Fixpoint encode_loop (clip : CLIP) (prefixes suffixes : list string)
    (conds : list (tensor * pooled)) : result (list (tensor * pooled)) :=
  match suffixes with
  | [] => Ok conds
  | target :: suffixes =>
      let complete_prompt := String.concat "" (prefixes ++ [target]) in
      let cond := clip_text_encode clip complete_prompt in
      _ ← assert (bool_decide (length cond = 1%nat));
      encode_loop clip prefixes suffixes (conds ++ cond)
  end.

Definition encode_bag_of_subprompts (clip : CLIP) (prefixes suffixes : list string)
    : result (list (tensor * pooled)) :=
  conds ← encode_loop clip prefixes suffixes [];
  cat ← torch_cat (fst <$> conds);
  first ← (match conds !! 0%nat with
           | Some c => Ok c
           | None => Raise IndexError
           end);
  Ok [(cat, snd first)].

(** The prefixes [layout_cond] passes on for the region at index [i]. *)
Definition region_prefixes (i : nat) (canvas_cond : OmostCanvasCondition)
    : list string :=
  let is_global := bool_decide (i = 0%nat) in
  let prefixes := prefixes canvas_cond in
  if negb is_global then drop 1 prefixes else prefixes.

(** [canvas_cond["mask"]] *)
Definition getitem_mask (canvas_cond : OmostCanvasCondition) : result Tensor :=
  match mask canvas_cond with
  | Some m => Ok m
  | None => Raise KeyError
  end.

(** The loop of [layout_cond] over [enumerate(canvas_conds)], from index [i]
    on, with [positive] as its state. *)
Fixpoint layout_loop (st : store) (clip : CLIP)
    (global_strength region_strength : strength)
    (i : nat) (canvas_conds : list loc) (positive : list area_cond)
    : result (list area_cond) :=
  match canvas_conds with
  | [] => Ok positive
  | l :: canvas_conds =>
      let canvas_cond := st l in
      let is_global := bool_decide (i = 0%nat) in
      cond ← encode_bag_of_subprompts clip (region_prefixes i canvas_cond)
               (suffixes canvas_cond);
      m ← getitem_mask canvas_cond;
      let cond :=
        cond_set_mask cond m
          (if is_global then global_strength else region_strength) in
      _ ← assert (bool_decide (length cond = 1%nat));
      layout_loop st clip global_strength region_strength (S i) canvas_conds
        (positive ++ cond)
  end.

Definition layout_cond (st : store) (canvas_conds : list loc) (clip : CLIP)
    (global_strength region_strength : strength)
    (positive : option (list area_cond)) : result (store * list area_cond) :=
  let positive := default [] positive in
  '(st, canvas_conds) ← calc_cond_mask st canvas_conds;
  positive ← layout_loop st clip global_strength region_strength 0
               canvas_conds positive;
  Ok (st, positive).

End Conditioning.

(** ** Notions of the specification *)

(** The grid whose cell [(x, y)] holds [f x y]. *)
Definition tabulate (f : nat → nat → Z) : Tensor :=
  (λ x, (λ y, f x y) <$> seq 0 CANVAS_SIZE) <$> seq 0 CANVAS_SIZE.

(** A [h] x [w] tensor. *)
Definition shape (t : Tensor) (h w : nat) : Prop :=
  length t = h ∧ Forall (λ row, length row = w) t.

(** The half-open rectangle [a, b) x [c, d). *)
Definition in_rect (r : Rect) (x y : nat) : bool :=
  let '(a, b, c, d) := r in
  bool_decide (a ≤ Z.of_nat x < b ∧ c ≤ Z.of_nat y < d).

(** A rectangle within the canvas. *)
Definition in_range (r : Rect) : Prop :=
  let '(a, b, c, d) := r in
  0 ≤ a ≤ b ∧ b ≤ Z.of_nat CANVAS_SIZE ∧ 0 ≤ c ≤ d ∧ d ≤ Z.of_nat CANVAS_SIZE.

(** The cells the slices [a:b, c:d] select in the canvas, for any four
    integers. *)
Definition covers (r : Rect) (x y : nat) : bool :=
  let '(a, b, c, d) := r in
  in_slice a b CANVAS_SIZE x && in_slice c d CANVAS_SIZE y.

(** A cell claimed by one of the rectangles [rs]. *)
Definition claimed (rs : list Rect) (x y : nat) : bool :=
  existsb (λ r, covers r x y) rs.

(** The mask of a region with rectangle [r] when the regions listed after it
    have the rectangles [later]. *)
Definition region_mask (r : Rect) (later : list Rect) (x y : nat) : Z :=
  if covers r x y && negb (claimed later x y) then 1 else 0.

(** The grid of the cells claimed by [rs]: what [canvas_state] holds once
    the regions with these rectangles are processed. *)
Definition occupancy (rs : list Rect) (x y : nat) : Z :=
  if claimed rs x y then 1 else 0.

(** The rectangles of the regions [ls]. *)
Definition rects (st : store) (ls : list loc) : list Rect :=
  (λ k, rect (st k)) <$> ls.

(** The store the loop of [calc_cond_mask] leaves behind, written by
    recursion on the list: the region listed first is written last. *)
Fixpoint loop_store (st : store) (canvas_conds : list loc) : store :=
  match canvas_conds with
  | [] => st
  | l :: rest =>
      setitem_mask (loop_store st rest) l
        (tabulate (region_mask (rect (st l)) (rects st rest)))
  end.

(** The store with every [mask] key removed. *)
Definition clear_masks (st : store) : store := λ l,
  {| rect := rect (st l); prefixes := prefixes (st l);
     suffixes := suffixes (st l); mask := None |}.

(** The prefixes the specification retains for the region at index [i]:
    all of them for the global region, all but the first for the others. *)
Definition retained_prefixes (i : nat) (r : OmostCanvasCondition) : list string :=
  match i with
  | O => prefixes r
  | S _ => drop 1 (prefixes r)
  end.

(** The complete prompt of one suffix: the retained prefixes concatenated,
    followed by the suffix. *)
Definition complete_prompt (i : nat) (r : OmostCanvasCondition) (suffix : string)
    : string :=
  String.concat "" (retained_prefixes i r) +:+ suffix.

(** ** Inputs for the worked examples *)

(** The example of the specification: a global region, a region over the
    whole canvas and a 10x10 block listed after it. *)
Definition example_store : store := λ l,
  match l with
  | 0%nat => mkCond (0, 0, 0, 0) ["g"] ["s"] None
  | 1%nat => mkCond (0, 90, 0, 90) ["g"; "p"] ["t"] None
  | _ => mkCond (10, 20, 10, 20) ["g"; "q"] ["u"; "v"] None
  end.

Definition example_regions : list loc := [0; 1; 2]%nat.

(** A second store: region 1 has a zero-area rectangle and no suffix,
    region 2 a rectangle whose bounds are negative or beyond the canvas. *)
Definition odd_store : store := λ l,
  match l with
  | 0%nat => mkCond (3, 4, 5, 6) [] [] None
  | 1%nat => mkCond (5, 5, 5, 5) ["g"] [] None
  | _ => mkCond (-5, 200, -200, 5) ["g"] ["w"] None
  end.

(** Collaborators to run the conditioning on: an embedding is the list of
    the prompts it encodes, concatenation appends them and refuses an empty
    list, and setting the mask records the strength. *)
Definition example_entry (text : string) : list string * string :=
  ([text], text).

Definition example_encode (clip : unit) (text : string)
    : list (list string * string) :=
  [example_entry text].

Definition example_cat (ts : list (list string)) : result (list string) :=
  match ts with
  | [] => Raise RuntimeError
  | _ => Ok (concat ts)
  end.

Definition example_set_mask (cond : list (list string * string)) (m : Tensor)
    (strength : Z) : list (list string * string * Z) :=
  (λ c, (c, strength)) <$> cond.

(** ** Further notions *)

(** The value of the mask of region [l] at a cell, 0 while there is none. *)
Definition mask_value (st : store) (l : loc) (x y : nat) : Z :=
  default 0 (m ← mask (st l); cell m x y).

(** The sum, at a cell, of the masks of the regions [ls]. *)
Definition total_weight (st : store) (ls : list loc) (x y : nat) : Z :=
  foldr (λ l acc, mask_value st l x y + acc) 0 ls.

(** The rectangle with each bound replaced by the index the slice rules
    give it, an empty range closed at its start. *)
Definition clamp_rect (r : Rect) : Rect :=
  let '(a, b, c, d) := r in
  let a' := slice_bound a CANVAS_SIZE in
  let b' := slice_bound b CANVAS_SIZE in
  let c' := slice_bound c CANVAS_SIZE in
  let d' := slice_bound d CANVAS_SIZE in
  (Z.of_nat a', Z.of_nat (a' `max` b'), Z.of_nat c', Z.of_nat (c' `max` d')).

Definition clamp_store (st : store) : store := λ l,
  {| rect := clamp_rect (rect (st l)); prefixes := prefixes (st l);
     suffixes := suffixes (st l); mask := mask (st l) |}.

(** The mask of region [l], once it is assigned. *)
Definition mask_of (st : store) (l : loc) : Tensor := default [] (mask (st l)).

(** The conditioning of the region [r] at index [i] when the encoder yields
    the entry [enc1 p] for the prompt [p] and [cat1] concatenates. *)
Definition region_cond {tensor pooled : Type}
    (enc1 : string → tensor * pooled) (cat1 : list tensor → tensor)
    (i : nat) (r : OmostCanvasCondition) : tensor * pooled :=
  (cat1 ((λ s, fst (enc1 (complete_prompt i r s))) <$> suffixes r),
   snd (enc1 (complete_prompt i r (default "" (head (suffixes r)))))).

(** What a call returns, without the store. *)
Definition returned {A : Type} (r : result (store * A)) : result A :=
  match r with
  | Ok (_, a) => Ok a
  | Raise e => Raise e
  end.

(** ** [create_logger] *)

(** A stream handler: the stream it writes to and, once set, the format of
    its formatter. *)
Record Handler : Type := mkHandler {
  stream : string;
  formatter : option string;
}.

(** The logger [logging.getLogger(__name__)] returns: the one logger of the
    module, with its level and its handlers. *)
Record Logger : Type := mkLogger {
  level : Z;
  handlers : list Handler;
}.

Definition StreamHandler (stream : string) : Handler := mkHandler stream None.

Definition setFormatter (h : Handler) (fmt : string) : Handler :=
  mkHandler (stream h) (Some fmt).

Definition setLevel (logger : Logger) (level : Z) : Logger :=
  mkLogger level (handlers logger).

(** [logger.addHandler(handler)] for a handler object that was just made:
    it is not among the handlers yet, and is appended. *)
Definition addHandler (logger : Logger) (handler : Handler) : Logger :=
  mkLogger (level logger) (handlers logger ++ [handler]).

(** [create_logger(level)], as a change of the module's logger. *)
Definition create_logger (level : Z) (logger : Logger) : Logger :=
  let logger := setLevel logger level in
  if bool_decide (handlers logger = []) then
    let handler := StreamHandler "sys.stdout" in
    let handler :=
      setFormatter handler
        "%(asctime)s - %(name)s - %(levelname)s - %(message)s" in
    addHandler logger handler
  else logger.

(** ** [OmostLLMChatNode.run_llm] *)

Inductive Role : Set := system | user | assistant.

Global Instance Role_eq_dec : EqDecision Role.
Proof. solve_decision. Defined.

Record OmostConversationItem : Type := mkItem {
  role : Role;
  content : string;
}.

Section Chat.

(** The language model, its tokenizer, the tokens, the floats and the
    canvas are those of the collaborators. *)
Context {AutoModelForCausalLM AutoTokenizer token float canvas : Type}.

Record OmostLLM : Type := mkLLM {
  model : AutoModelForCausalLM;
  tokenizer : AutoTokenizer;
}.

(** [system_prompt] of lib_omost/canvas.py *)
Variable system_prompt : string.
(** [tokenizer.apply_chat_template(conversation, return_tensors="pt",
    add_generation_prompt=True)]: the one row of the tensor *)
Variable apply_chat_template : AutoTokenizer → list OmostConversationItem → list token.
(** [model.generate(input_ids=.., max_new_tokens=.., temperature=..,
    top_p=.., do_sample=..)]: the one row of the tensor *)
Variable generate :
  AutoModelForCausalLM → list token → Z → float → float → bool → list token.
(** [tokenizer.decode(ids, skip_special_tokens=True, skip_prompt=True,
    timeout=10)] *)
Variable decode : AutoTokenizer → list token → string.
(** [OmostCanvas.from_bot_response(text).process()], which may raise *)
Variable from_bot_response : string → result canvas.
(** [x != 0] on floats *)
Variable float_ne_zero : float → bool.

Definition run_llm (llm : OmostLLM) (text : string) (max_new_tokens : Z)
    (top_p temperature : float)
    (conversation : option (list OmostConversationItem))
    : result (list OmostConversationItem * canvas) :=
  let llm_tokenizer := tokenizer llm in
  let llm_model := model llm in
  let conversation := default [] conversation in
  let system_conversation_item := mkItem system system_prompt in
  let user_conversation_item := mkItem user text in
  let input_conversation :=
    [system_conversation_item] ++ conversation ++ [user_conversation_item] in
  let input_ids := apply_chat_template llm_tokenizer input_conversation in
  let input_length := length input_ids in
  let output_ids :=
    generate llm_model input_ids max_new_tokens temperature top_p
      (float_ne_zero temperature) in
  let generated_ids := drop input_length output_ids in
  let generated_text := decode llm_tokenizer generated_ids in
  let output_conversation :=
    conversation ++ [user_conversation_item; mkItem assistant generated_text] in
  canvas ← from_bot_response generated_text;
  Ok (output_conversation, canvas).

End Chat.

(** A history of whole turns: a user item and the assistant item answering
    it, turn after turn, and no system item. *)
Fixpoint dialogue (conversation : list OmostConversationItem) : bool :=
  match conversation with
  | [] => true
  | u :: rest =>
      match rest with
      | [] => false
      | a :: rest =>
          bool_decide (role u = user) && bool_decide (role a = assistant) &&
          dialogue rest
      end
  end.

(** ** Further inputs for the worked examples *)

(** The example store with other first prefixes in the regions, another
    rectangle in the global region, and a mask left in region 1. *)
Definition retitled_store : store := λ l,
  match l with
  | 0%nat => mkCond (7, 8, 9, 10) ["g"] ["s"] None
  | 1%nat => mkCond (0, 90, 0, 90) ["G"; "p"] ["t"] (Some [])
  | _ => mkCond (10, 20, 10, 20) ["H"; "q"] ["u"; "v"] None
  end.

(** An encoder that yields no entry. *)
Definition silent_encode (clip : unit) (text : string)
    : list (list string * string) :=
  [].

(** Collaborators to run the chat on: a token is a string, the template
    lists the contents of the items, the model answers with one token after
    the prompt, decoding joins the tokens, and the reply is its own canvas.
    Floats are given in hundredths. *)
Definition example_template (tokenizer : unit)
    (conversation : list OmostConversationItem) : list string :=
  content <$> conversation.

Definition example_generate (model : unit) (input_ids : list string)
    (max_new_tokens : Z) (temperature top_p : Z) (do_sample : bool)
    : list string :=
  input_ids ++ ["canvas"].

Definition example_decode (tokenizer : unit) (ids : list string) : string :=
  String.concat "" ids.

Definition example_parse (text : string) : result string := Ok text.

Definition example_ne_zero (x : Z) : bool := bool_decide (x ≠ 0).

(** ** [calc_cond_mask] on what [load_canvas] delivers *)

(** The values [json.loads] builds.  They share nothing, so they are kept as
    trees.  A float keeps the literal it was read from. *)
#[warnings="-register-all"]
Inductive json : Type :=
  | JNull
  | JBool (b : bool)
  | JInt (n : Z)
  | JFloat (literal : string)
  | JString (s : string)
  | JArray (items : list json)
  | JObject (members : list (string * json)).

(** [d[key]] on the members of an object as they were read: a later member
    replaces an earlier one of the same name. *)
Fixpoint dict_get (key : string) (members : list (string * json)) : option json :=
  match members with
  | [] => None
  | (k, v) :: members =>
      match dict_get key members with
      | Some later => Some later
      | None => if decide (k = key) then Some v else None
      end
  end.

(** The keys of the dict, in the order of their first insertion. *)
Definition dict_keys (members : list (string * json)) : list string :=
  reverse (remove_dups (reverse (fst <$> members))).

(** [v[key]] for a string key *)
Definition getitem (v : json) (key : string) : result json :=
  match v with
  | JObject members =>
      match dict_get key members with
      | Some x => Ok x
      | None => Raise KeyError
      end
  | _ => Raise TypeError
  end.

(** The characters of a [str]: the string is UTF-8, a character is a byte
    that is no continuation byte, with the continuation bytes after it. *)
Definition is_continuation (a : Ascii.ascii) : bool :=
  bool_decide (128 ≤ Ascii.nat_of_ascii a < 192)%nat.

Fixpoint code_points (s : string) : list string :=
  match s with
  | EmptyString => []
  | String a rest =>
      let cs := code_points rest in
      match rest with
      | String b _ =>
          if is_continuation b then
            match cs with
            | c :: cs => String a c :: cs
            | [] => [String a EmptyString]
            end
          else String a EmptyString :: cs
      | EmptyString => [String a EmptyString]
      end
  end.

(** The items iterating over a value yields, as the unpacking of a tuple
    assignment asks for them. *)
Definition iter_items (v : json) : result (list json) :=
  match v with
  | JArray items => Ok items
  | JString s => Ok (JString <$> code_points s)
  | JObject members => Ok (JString <$> dict_keys members)
  | JNull | JBool _ | JInt _ | JFloat _ => Raise TypeError
  end.

(** [a, b, c, d = v] *)
Definition unpack4 (v : json) : result (json * json * json * json) :=
  items ← iter_items v;
  match items with
  | [a; b; c; d] => Ok (a, b, c, d)
  | _ => Raise ValueError
  end.

(** A bound of a slice: an integer, [True] and [False] as 1 and 0, [None]
    as the bound that is left out, whose [default] is the start or the end of
    the dimension; anything else is refused. *)
Definition slice_index (default : Z) (v : json) : result Z :=
  match v with
  | JInt n => Ok n
  | JBool b => Ok (if b then 1 else 0)
  | JNull => Ok default
  | JFloat _ | JString _ | JArray _ | JObject _ => Raise TypeError
  end.

(** A region dict after the call: the members it was loaded with, and the
    tensor its key [mask] is bound to (in place of a loaded member of that
    name, if there was one). *)
Record MaskedRegion : Type := mkMasked {
  loaded : list (string * json);
  assigned_mask : Tensor;
}.

(** [v["mask"] = m] *)
Definition setitem_mask_json (v : json) (m : Tensor) : result MaskedRegion :=
  match v with
  | JObject members => Ok (mkMasked members m)
  | _ => Raise TypeError
  end.

(** The body of the loop, lines 285 to 290. *)
Definition mask_step_json (canvas_state : Tensor) (canvas_cond : json)
    : result (MaskedRegion * Tensor) :=
  rect ← getitem canvas_cond "rect";
  '(a, b, c, d) ← unpack4 rect;
  let mask := torch_zeros CANVAS_SIZE CANVAS_SIZE in
  a ← slice_index 0 a;
  b ← slice_index (Z.of_nat CANVAS_SIZE) b;
  c ← slice_index 0 c;
  d ← slice_index (Z.of_nat CANVAS_SIZE) d;
  let mask := setitem_slice mask a b c d 1 in
  let mask := mul mask (rsub 1 canvas_state) in
  let canvas_state := add canvas_state mask in
  canvas_cond ← setitem_mask_json canvas_cond mask;
  Ok (canvas_cond, canvas_state).

(** The loop over the regions in the order they are processed; the regions
    it returns are in that order too. *)
Fixpoint mask_loop_json (canvas_state : Tensor) (canvas_conds : list json)
    : result (list MaskedRegion) :=
  match canvas_conds with
  | [] => Ok []
  | canvas_cond :: canvas_conds =>
      '(done, canvas_state) ← mask_step_json canvas_state canvas_cond;
      rest ← mask_loop_json canvas_state canvas_conds;
      Ok (done :: rest)
  end.

Definition calc_cond_mask_json (canvas_conds : list json)
    : result (list MaskedRegion) :=
  _ ← assert (bool_decide (0 < length canvas_conds)%nat);
  match canvas_conds with
  | [] => Raise IndexError
  | global_cond :: _ =>
      global_cond ←
        setitem_mask_json global_cond (torch_ones CANVAS_SIZE CANVAS_SIZE);
      let canvas_state := torch_zeros CANVAS_SIZE CANVAS_SIZE in
      processed ← mask_loop_json canvas_state (reverse (drop 1 canvas_conds));
      Ok (global_cond :: reverse processed)
  end.

(** A value a slice takes as a bound. *)
Definition is_bound (v : json) : bool :=
  match v with
  | JInt _ | JBool _ | JNull => true
  | _ => false
  end.

(** A region the loop can process: a dict whose [rect] is an array of four
    bounds. *)
Definition has_four_bounds (v : json) : bool :=
  match v with
  | JObject members =>
      match dict_get "rect" members with
      | Some (JArray [a; b; c; d]) =>
          is_bound a && is_bound b && is_bound c && is_bound d
      | _ => false
      end
  | _ => false
  end.

Definition is_dict (v : json) : bool :=
  match v with
  | JObject _ => true
  | _ => false
  end.

(** The exceptions of the unchecked item access, unpacking and slicing. *)
Definition unchecked (e : exn) : Prop :=
  e = KeyError ∨ e = ValueError ∨ e = TypeError.

(** The four integers the slicing works with, for a region the loop can
    process: a bound that is left out stands for the start or the end of the
    canvas. *)
Definition bound_value (default : Z) (v : json) : Z :=
  match slice_index default v with
  | Ok n => n
  | Raise _ => default
  end.

Definition bounds_of (v : json) : Rect :=
  match v with
  | JObject members =>
      match dict_get "rect" members with
      | Some (JArray [a; b; c; d]) =>
          (bound_value 0 a, bound_value (Z.of_nat CANVAS_SIZE) b,
           bound_value 0 c, bound_value (Z.of_nat CANVAS_SIZE) d)
      | _ => (0, 0, 0, 0)
      end
  | _ => (0, 0, 0, 0)
  end.

(** The members of a dict. *)
Definition members_of (v : json) : list (string * json) :=
  match v with
  | JObject members => members
  | _ => []
  end.

(** The store that holds, at the location [i], a region with the bounds of
    the [i]-th loaded region. *)
Definition bounds_store (canvas_conds : list json) : store := λ l,
  mkCond (bounds_of (default JNull (canvas_conds !! l))) [] [] None.

(** The regions the loop returns, in the order of the list: each with the
    mask its bounds and the bounds of the regions after it give. *)
Fixpoint masked_regions (later : list Rect) (canvas_conds : list json)
    : list MaskedRegion :=
  match canvas_conds with
  | [] => []
  | r :: rest =>
      mkMasked (members_of r)
        (tabulate (region_mask (bounds_of r) ((bounds_of <$> rest) ++ later)))
      :: masked_regions later rest
  end.

(** The same regions in the order the loop processes them, [before] being
    the bounds of the regions processed so far. *)
Fixpoint processed_regions (before : list Rect) (canvas_conds : list json)
    : list MaskedRegion :=
  match canvas_conds with
  | [] => []
  | r :: rest =>
      mkMasked (members_of r) (tabulate (region_mask (bounds_of r) before))
      :: processed_regions (bounds_of r :: before) rest
  end.

(** Regions as [load_canvas] may deliver them. *)
Definition json_region (rect : json) : json :=
  JObject [("rect", rect); ("prefixes", JArray [JString "g"]);
           ("suffixes", JArray [JString "s"])].

Definition json_ints (a b c d : Z) : json :=
  JArray [JInt a; JInt b; JInt c; JInt d].


(** * Proofs *)

(** The canvas size is kept folded in the proofs. *)
Opaque CANVAS_SIZE.

(** ** Tensors as tabulated grids *)

Section Grids.
Implicit Types (f g : nat → nat → Z) (t u : Tensor).

Lemma tabulate_ext f g :
  (∀ x y, (x < CANVAS_SIZE)%nat → (y < CANVAS_SIZE)%nat → f x y = g x y) →
  tabulate f = tabulate g.
Proof.
  intros Hfg. unfold tabulate.
  apply list_fmap_ext. intros i x Hx%lookup_seq.
  apply list_fmap_ext. intros j y Hy%lookup_seq.
  apply Hfg; lia.
Qed.

Lemma replicate_seq {A} (v : A) n : replicate n v = (λ _, v) <$> seq 0 n.
Proof.
  symmetry. rewrite <- (length_seq n 0) at 2. by apply const_fmap.
Qed.

Lemma torch_ones_tabulate :
  torch_ones CANVAS_SIZE CANVAS_SIZE = tabulate (λ _ _, 1).
Proof. unfold torch_ones, tabulate. by rewrite !replicate_seq. Qed.

Lemma torch_zeros_tabulate :
  torch_zeros CANVAS_SIZE CANVAS_SIZE = tabulate (λ _ _, 0).
Proof. unfold torch_zeros, tabulate. by rewrite !replicate_seq. Qed.

Lemma imap_fmap_seq {A B} (h : nat → A → B) (k : nat → A) n :
  imap h (k <$> seq 0 n) = (λ i, h i (k i)) <$> seq 0 n.
Proof.
  rewrite imap_fmap.
  rewrite (imap_ext _ (λ j _, h j (k j))).
  - by rewrite imap_seq_0, length_seq.
  - intros i x Hx%lookup_seq. simpl. destruct Hx as [-> _]. done.
Qed.

Lemma zip_with_fmap_seq {A B C D} (h : A → B → C) (k1 : D → A) (k2 : D → B) (l : list D) :
  zip_with h (k1 <$> l) (k2 <$> l) = (λ i, h (k1 i) (k2 i)) <$> l.
Proof. induction l as [|a l IH]; [done|]. rewrite !fmap_cons. simpl. by rewrite IH. Qed.

Lemma length_tabulate f : length (tabulate f) = CANVAS_SIZE.
Proof. unfold tabulate. by rewrite length_fmap, length_seq. Qed.

Lemma setitem_slice_tabulate f a b c d v :
  setitem_slice (tabulate f) a b c d v =
  tabulate (λ x y, if covers (a, b, c, d) x y then v else f x y).
Proof.
  unfold setitem_slice. rewrite length_tabulate. unfold tabulate.
  rewrite imap_fmap_seq. apply list_fmap_ext. intros i x Hx%lookup_seq.
  unfold covers. rewrite length_fmap, length_seq, imap_fmap_seq.
  by destruct (in_slice a b CANVAS_SIZE x).
Qed.

Lemma rsub_tabulate s f : rsub s (tabulate f) = tabulate (λ x y, s - f x y).
Proof.
  unfold rsub, tabulate. rewrite <- list_fmap_compose.
  apply list_fmap_ext. intros i x _. unfold compose.
  by rewrite <- list_fmap_compose.
Qed.

Lemma mul_tabulate f g :
  mul (tabulate f) (tabulate g) = tabulate (λ x y, f x y * g x y).
Proof.
  unfold mul, tabulate. rewrite zip_with_fmap_seq.
  apply list_fmap_ext. intros i x _. by rewrite zip_with_fmap_seq.
Qed.

Lemma add_tabulate f g :
  add (tabulate f) (tabulate g) = tabulate (λ x y, f x y + g x y).
Proof.
  unfold add, tabulate. rewrite zip_with_fmap_seq.
  apply list_fmap_ext. intros i x _. by rewrite zip_with_fmap_seq.
Qed.

Lemma shape_tabulate f : shape (tabulate f) CANVAS_SIZE CANVAS_SIZE.
Proof.
  split; [apply length_tabulate|].
  unfold tabulate. apply Forall_fmap, Forall_forall. intros x _. unfold compose.
  by rewrite length_fmap, length_seq.
Qed.

Lemma cell_tabulate f x y :
  (x < CANVAS_SIZE)%nat → (y < CANVAS_SIZE)%nat →
  cell (tabulate f) x y = Some (f x y).
Proof.
  intros Hx Hy. unfold cell, tabulate.
  rewrite list_lookup_fmap, lookup_seq_lt by done. simpl.
  by rewrite list_lookup_fmap, lookup_seq_lt by done.
Qed.

Lemma cell_tabulate_Some f x y v :
  cell (tabulate f) x y = Some v →
  (x < CANVAS_SIZE)%nat ∧ (y < CANVAS_SIZE)%nat ∧ v = f x y.
Proof.
  unfold cell, tabulate. rewrite list_lookup_fmap.
  destruct (seq 0 CANVAS_SIZE !! x) as [x'|] eqn:Hx; simpl; [|done].
  apply lookup_seq in Hx as [-> Hx]. rewrite list_lookup_fmap.
  destruct (seq 0 CANVAS_SIZE !! y) as [y'|] eqn:Hy; simpl; [|done].
  apply lookup_seq in Hy as [-> Hy]. naive_solver.
Qed.

Lemma tabulate_inj f g x y :
  tabulate f = tabulate g → (x < CANVAS_SIZE)%nat → (y < CANVAS_SIZE)%nat →
  f x y = g x y.
Proof.
  intros Heq Hx Hy. pose proof (cell_tabulate f x y Hx Hy) as H1.
  rewrite Heq, cell_tabulate in H1 by done. congruence.
Qed.
End Grids.

(** ** The store and the loop *)

Section Store.
Implicit Types (st : store) (l k : loc) (ls : list loc) (m : Tensor).

Lemma rect_setitem_mask st l m k : rect (setitem_mask st l m k) = rect (st k).
Proof. unfold setitem_mask. case_decide; by subst. Qed.

Lemma prefixes_setitem_mask st l m k :
  prefixes (setitem_mask st l m k) = prefixes (st k).
Proof. unfold setitem_mask. case_decide; by subst. Qed.

Lemma suffixes_setitem_mask st l m k :
  suffixes (setitem_mask st l m k) = suffixes (st k).
Proof. unfold setitem_mask. case_decide; by subst. Qed.

Lemma mask_setitem_mask_eq st l m : mask (setitem_mask st l m l) = Some m.
Proof. unfold setitem_mask. by rewrite decide_True. Qed.

Lemma setitem_mask_ne st l m k : k ≠ l → setitem_mask st l m k = st k.
Proof. intros. unfold setitem_mask. by rewrite decide_False. Qed.

Lemma rects_ext st1 st2 ls :
  (∀ k, rect (st1 k) = rect (st2 k)) → rects st1 ls = rects st2 ls.
Proof. intros Hr. apply list_fmap_ext. intros _ k _. apply Hr. Qed.

Lemma rect_loop_store st ls k : rect (loop_store st ls k) = rect (st k).
Proof.
  induction ls as [|l ls IH]; [done|].
  simpl. by rewrite rect_setitem_mask.
Qed.

Lemma prefixes_loop_store st ls k :
  prefixes (loop_store st ls k) = prefixes (st k).
Proof.
  induction ls as [|l ls IH]; [done|].
  simpl. by rewrite prefixes_setitem_mask.
Qed.

Lemma suffixes_loop_store st ls k :
  suffixes (loop_store st ls k) = suffixes (st k).
Proof.
  induction ls as [|l ls IH]; [done|].
  simpl. by rewrite suffixes_setitem_mask.
Qed.

Lemma loop_store_notin st ls k : k ∉ ls → loop_store st ls k = st k.
Proof.
  induction ls as [|l ls IH]; [done|].
  intros [Hne Hk]%not_elem_of_cons. simpl.
  rewrite setitem_mask_ne by done. auto.
Qed.

(** One pass of the loop body over a tabulated [canvas_state]. *)
Lemma mask_step_tabulate st s l :
  mask_step (st, tabulate s) l =
  (setitem_mask st l
     (tabulate (λ x y, (if covers (rect (st l)) x y then 1 else 0) * (1 - s x y))),
   tabulate (λ x y,
     s x y + (if covers (rect (st l)) x y then 1 else 0) * (1 - s x y))).
Proof.
  unfold mask_step. destruct (rect (st l)) as [[[a b] c] d].
  rewrite torch_zeros_tabulate, setitem_slice_tabulate, rsub_tabulate,
    mul_tabulate, add_tabulate. done.
Qed.

(** The loop of [calc_cond_mask], run over the reversed list, computes
    [loop_store] and leaves the occupancy grid in [canvas_state]. *)
Lemma foldl_mask_step st ls :
  foldl mask_step (st, torch_zeros CANVAS_SIZE CANVAS_SIZE) (reverse ls) =
  (loop_store st ls, tabulate (occupancy (rects st ls))).
Proof.
  induction ls as [|l ls IH].
  - simpl. by rewrite torch_zeros_tabulate.
  - rewrite reverse_cons, foldl_app, IH. cbn [foldl].
    rewrite mask_step_tabulate, rect_loop_store. f_equal.
    + cbn [loop_store]. f_equal. apply tabulate_ext. intros x y _ _.
      unfold region_mask, occupancy.
      by destruct (covers _ x y), (claimed _ x y).
    + apply tabulate_ext. intros x y _ _. unfold occupancy, rects.
      rewrite fmap_cons. simpl.
      by destruct (covers _ x y), (claimed _ x y).
Qed.

Lemma calc_cond_mask_cons st g tl :
  calc_cond_mask st (g :: tl) =
  Ok (loop_store (setitem_mask st g (torch_ones CANVAS_SIZE CANVAS_SIZE)) tl,
      g :: tl).
Proof.
  unfold calc_cond_mask. simpl. by rewrite foldl_mask_step.
Qed.

Lemma calc_cond_mask_nil st : calc_cond_mask st [] = Raise AssertionError.
Proof. done. Qed.

(** The mask a region object ends with is the one computed at its first
    position in the list. *)
Lemma mask_loop_store_first st ls i l :
  ls !! i = Some l → (∀ j, (j < i)%nat → ls !! j ≠ Some l) →
  mask (loop_store st ls l) =
  Some (tabulate (region_mask (rect (st l)) (rects st (drop (S i) ls)))).
Proof.
  revert i. induction ls as [|k ls IH]; intros i Hi Hfirst; [done|].
  destruct i as [|i]; simpl in *.
  - simplify_eq. by rewrite mask_setitem_mask_eq.
  - assert (l ≠ k) as Hne.
    { intros ->. by apply (Hfirst 0%nat); [lia|]. }
    rewrite setitem_mask_ne by done. apply IH; [done|].
    intros j Hj. apply (Hfirst (S j)). lia.
Qed.

Lemma first_occurrence ls i l :
  ls !! i = Some l →
  ∃ f, (f ≤ i)%nat ∧ ls !! f = Some l ∧ ∀ j, (j < f)%nat → ls !! j ≠ Some l.
Proof.
  revert i. induction ls as [|k ls IH]; intros i Hi; [done|].
  destruct (decide (k = l)) as [->|Hne].
  - exists 0%nat. split_and!; [lia|done|lia].
  - destruct i as [|i]; simpl in *; [congruence|].
    destruct (IH i Hi) as (f & Hf & Hl & Hfirst).
    exists (S f). split_and!; [lia|done|].
    intros [|j] Hj; simpl; [congruence|]. apply Hfirst. lia.
Qed.

Lemma claimed_later st ls f k l x y :
  ls !! k = Some l → (f < k)%nat → covers (rect (st l)) x y = true →
  claimed (rects st (drop (S f) ls)) x y = true.
Proof.
  intros Hk Hfk Hc. unfold claimed. apply existsb_exists.
  exists (rect (st l)). split; [|done].
  apply list_elem_of_In, list_elem_of_fmap. exists l. split; [done|].
  apply list_elem_of_lookup. exists (k - S f)%nat.
  rewrite lookup_drop. rewrite <- Hk. f_equal. lia.
Qed.

End Store.

(** ** Rectangles and slices *)

Lemma CANVAS_SIZE_eq : CANVAS_SIZE = 90%nat.
Proof. reflexivity. Qed.

Section Rectangles.
Implicit Types (r : Rect) (st : store) (ls : list loc).

Lemma slice_bound_in_range (i : Z) (len : nat) :
  0 ≤ i ≤ Z.of_nat len → slice_bound i len = Z.to_nat i.
Proof.
  intros Hi. unfold slice_bound. rewrite bool_decide_false by lia.
  f_equal. lia.
Qed.

(** Within the canvas the slices select the half-open rectangle. *)
Lemma covers_in_rect r x y :
  in_range r → (x < CANVAS_SIZE)%nat → (y < CANVAS_SIZE)%nat →
  covers r x y = in_rect r x y.
Proof.
  destruct r as [[[a b] c] d]. intros (Hab & Hb & Hcd & Hd) Hx Hy.
  unfold covers, in_rect, in_slice.
  rewrite !slice_bound_in_range by lia.
  apply eq_true_iff_eq.
  rewrite andb_true_iff, !bool_decide_eq_true. lia.
Qed.

Lemma covers_empty a b c d x y : a = b ∨ c = d → covers (a, b, c, d) x y = false.
Proof.
  intros Hz. unfold covers, in_slice. apply andb_false_iff.
  rewrite !bool_decide_eq_false. destruct Hz as [-> | ->]; [left|right]; lia.
Qed.

Lemma claimed_in_range st ls x y :
  Forall (λ k, in_range (rect (st k))) ls →
  (x < CANVAS_SIZE)%nat → (y < CANVAS_SIZE)%nat →
  negb (claimed (rects st ls) x y) =
  forallb (λ k, negb (in_rect (rect (st k)) x y)) ls.
Proof.
  intros Hr Hx Hy. induction Hr as [|k ls Hk _ IH]; [done|].
  unfold claimed, rects in *. rewrite fmap_cons. cbn [existsb forallb].
  rewrite negb_orb, IH. by rewrite covers_in_rect.
Qed.

Lemma region_mask_covers r later x y :
  region_mask r later x y = 1 → covers r x y = true ∧ claimed later x y = false.
Proof.
  unfold region_mask. by destruct (covers r x y), (claimed later x y).
Qed.

Lemma region_mask_outside r later x y :
  covers r x y = false → region_mask r later x y = 0.
Proof. unfold region_mask. by intros ->. Qed.

End Rectangles.

Section Claims.
Implicit Types (st : store) (l g : loc) (locs tl : list loc).

(** What [calc_cond_mask] leaves in a region object listed after the global
    one: the mask computed at the first position [f] it is listed at. *)
Lemma calc_cond_mask_region st g tl i l :
  tl !! i = Some l →
  ∃ f, (f ≤ i)%nat ∧ tl !! f = Some l ∧
    (∀ j, (j < f)%nat → tl !! j ≠ Some l) ∧
    mask (loop_store (setitem_mask st g (torch_ones CANVAS_SIZE CANVAS_SIZE)) tl l) =
    Some (tabulate (region_mask (rect (st l)) (rects st (drop (S f) tl)))).
Proof.
  intros Hl. destruct (first_occurrence tl i l Hl) as (f & Hf & Hfl & Hfirst).
  exists f. split_and!; [done..|].
  rewrite (mask_loop_store_first _ tl f l) by done.
  rewrite rect_setitem_mask.
  by rewrite (rects_ext _ st) by (intros; apply rect_setitem_mask).
Qed.

(** C1.  On a list of distinct region objects whose rectangles lie within
    the canvas, the region at index [i >= 1] receives a 90x90 mask that is 1
    exactly at the cells of its half-open rectangle that are in no rectangle
    of a region listed after it, and 0 at every other cell: the region listed
    last wins an overlap. *)
Theorem calc_cond_mask_last_in_list_wins st locs i l :
  NoDup locs →
  Forall (λ k, in_range (rect (st k))) locs →
  (1 ≤ i)%nat →
  locs !! i = Some l →
  ∃ st' m,
    calc_cond_mask st locs = Ok (st', locs) ∧
    mask (st' l) = Some m ∧
    shape m CANVAS_SIZE CANVAS_SIZE ∧
    ∀ x y, (x < CANVAS_SIZE)%nat → (y < CANVAS_SIZE)%nat →
      cell m x y =
      Some (if in_rect (rect (st l)) x y &&
               forallb (λ k, negb (in_rect (rect (st k)) x y)) (drop (S i) locs)
            then 1 else 0).
Proof.
  intros Hnd Hrange Hi Hl.
  destruct locs as [|g tl]; [done|]. destruct i as [|i]; [lia|].
  cbn [lookup list_lookup] in Hl. cbn [drop].
  apply NoDup_cons in Hnd as [_ Hnd]. apply Forall_cons in Hrange as [_ Hrange].
  destruct (calc_cond_mask_region st g tl i l Hl) as (f & _ & Hfl & _ & Hm).
  assert (f = i) as -> by (by eapply NoDup_lookup).
  eexists _, _. split; [apply calc_cond_mask_cons|].
  split; [exact Hm|]. split; [apply shape_tabulate|].
  intros x y Hx Hy. rewrite cell_tabulate by done. f_equal.
  unfold region_mask.
  rewrite covers_in_rect, claimed_in_range; try done.
  - by apply Forall_drop.
  - eapply Forall_lookup_1 in Hrange; done.
Qed.

Lemma calc_cond_mask_last_in_list_wins_witness :
  ∃ st' m,
    calc_cond_mask example_store example_regions = Ok (st', example_regions) ∧
    mask (st' 1%nat) = Some m ∧
    shape m CANVAS_SIZE CANVAS_SIZE ∧
    ∀ x y, (x < CANVAS_SIZE)%nat → (y < CANVAS_SIZE)%nat →
      cell m x y =
      Some (if in_rect (0, 90, 0, 90) x y &&
               forallb (λ k, negb (in_rect (rect (example_store k)) x y)) [2%nat]
            then 1 else 0).
Proof.
  apply (calc_cond_mask_last_in_list_wins example_store example_regions 1 1%nat).
  - apply (bool_decide_unpack _). by vm_compute.
  - unfold example_regions. repeat constructor; rewrite ?CANVAS_SIZE_eq; simpl; lia.
  - lia.
  - reflexivity.
Defined.

(** C2.  On a non-empty list of distinct region objects, the first (global)
    region receives the all-ones 90x90 mask, whatever its [rect] field. *)
Theorem calc_cond_mask_global_all_ones st locs g :
  NoDup locs →
  head locs = Some g →
  ∃ st',
    calc_cond_mask st locs = Ok (st', locs) ∧
    mask (st' g) = Some (torch_ones CANVAS_SIZE CANVAS_SIZE).
Proof.
  intros Hnd Hg. destruct locs as [|g' tl]; simplify_eq/=.
  apply NoDup_cons in Hnd as [Hg _].
  eexists. split; [apply calc_cond_mask_cons|].
  rewrite loop_store_notin by done. apply mask_setitem_mask_eq.
Qed.

Lemma calc_cond_mask_global_all_ones_witness :
  ∃ st',
    calc_cond_mask odd_store example_regions = Ok (st', example_regions) ∧
    mask (st' 0%nat) = Some (torch_ones CANVAS_SIZE CANVAS_SIZE).
Proof.
  apply (calc_cond_mask_global_all_ones odd_store example_regions 0%nat).
  - apply (bool_decide_unpack _). by vm_compute.
  - reflexivity.
Defined.

(** C3.  The masks of two distinct non-global positions [i, j >= 1] of the
    list are disjoint: no cell is 1 in both. *)
Theorem calc_cond_mask_disjoint st locs i j li lj :
  (1 ≤ i)%nat → (1 ≤ j)%nat → i ≠ j →
  locs !! i = Some li → locs !! j = Some lj →
  ∃ st' mi mj,
    calc_cond_mask st locs = Ok (st', locs) ∧
    mask (st' li) = Some mi ∧
    mask (st' lj) = Some mj ∧
    ∀ x y, ¬ (cell mi x y = Some 1 ∧ cell mj x y = Some 1).
Proof.
  intros Hi Hj Hij Hli Hlj.
  destruct locs as [|g tl]; [done|].
  destruct i as [|i]; [lia|]. destruct j as [|j]; [lia|].
  cbn [lookup list_lookup] in Hli, Hlj.
  destruct (calc_cond_mask_region st g tl i li Hli)
    as (fi & Hfi & Hfli & Hfirsti & Hmi).
  destruct (calc_cond_mask_region st g tl j lj Hlj)
    as (fj & Hfj & Hflj & Hfirstj & Hmj).
  eexists _, _, _. split; [apply calc_cond_mask_cons|].
  split; [exact Hmi|]. split; [exact Hmj|].
  intros x y [Hci Hcj].
  apply cell_tabulate_Some in Hci as (_ & _ & Hci).
  apply cell_tabulate_Some in Hcj as (_ & _ & Hcj).
  symmetry in Hci, Hcj.
  apply region_mask_covers in Hci as [Hcovi Hfreei].
  apply region_mask_covers in Hcj as [Hcovj Hfreej].
  destruct (Nat.lt_total fi fj) as [Hlt | [-> | Hlt]].
  - by rewrite (claimed_later st tl fi fj lj x y) in Hfreei.
  - assert (li = lj) as -> by congruence.
    destruct (decide (fj = i)) as [-> | Hne].
    + by rewrite (claimed_later st tl i j lj x y) in Hfreei by (done || lia).
    + by rewrite (claimed_later st tl fj i lj x y) in Hfreei by (done || lia).
  - by rewrite (claimed_later st tl fj fi li x y) in Hfreej.
Qed.

Lemma calc_cond_mask_disjoint_witness :
  ∃ st' mi mj,
    calc_cond_mask example_store example_regions = Ok (st', example_regions) ∧
    mask (st' 1%nat) = Some mi ∧
    mask (st' 2%nat) = Some mj ∧
    ∀ x y, ¬ (cell mi x y = Some 1 ∧ cell mj x y = Some 1).
Proof.
  apply (calc_cond_mask_disjoint example_store example_regions 1 2 1%nat 2%nat);
    [lia | lia | lia | reflexivity | reflexivity].
Defined.

(** C4.  With rectangles within the canvas, the mask of every non-global
    region is 0 at each cell outside the region's own rectangle; hence a cell
    that is 1 in some non-global mask lies in some non-global rectangle. *)
Theorem calc_cond_mask_within_rect st locs :
  locs ≠ [] →
  Forall (λ k, in_range (rect (st k))) locs →
  ∃ st',
    calc_cond_mask st locs = Ok (st', locs) ∧
    (∀ i l, (1 ≤ i)%nat → locs !! i = Some l →
       ∃ m, mask (st' l) = Some m ∧
         ∀ x y, (x < CANVAS_SIZE)%nat → (y < CANVAS_SIZE)%nat →
           in_rect (rect (st l)) x y = false → cell m x y = Some 0) ∧
    (∀ x y i l m, (1 ≤ i)%nat → locs !! i = Some l →
       mask (st' l) = Some m → cell m x y = Some 1 →
       ∃ j k, (1 ≤ j)%nat ∧ locs !! j = Some k ∧
         in_rect (rect (st k)) x y = true).
Proof.
  intros Hne Hrange. destruct locs as [|g tl]; [done|].
  apply Forall_cons in Hrange as [_ Hrange].
  eexists. split; [apply calc_cond_mask_cons|]. split.
  - intros [|i] l Hi Hl; [lia|]. cbn [lookup list_lookup] in Hl.
    destruct (calc_cond_mask_region st g tl i l Hl) as (f & _ & _ & _ & Hm).
    eexists. split; [exact Hm|]. intros x y Hx Hy Hout.
    rewrite cell_tabulate by done. f_equal. apply region_mask_outside.
    rewrite covers_in_rect; [done| |done..].
    eapply Forall_lookup_1 in Hrange; done.
  - intros x y [|i] l m Hi Hl Hm Hc; [lia|]. cbn [lookup list_lookup] in Hl.
    destruct (calc_cond_mask_region st g tl i l Hl) as (f & _ & _ & _ & Hm').
    rewrite Hm in Hm'. injection Hm' as ->.
    apply cell_tabulate_Some in Hc as (Hx & Hy & Hc). symmetry in Hc.
    apply region_mask_covers in Hc as [Hc _].
    exists (S i), l. split_and!; [lia|done|].
    rewrite <- covers_in_rect; [done| |done..].
    eapply Forall_lookup_1 in Hrange; done.
Qed.

Lemma calc_cond_mask_within_rect_witness :
  ∃ st',
    calc_cond_mask example_store example_regions = Ok (st', example_regions) ∧
    (∀ i l, (1 ≤ i)%nat → example_regions !! i = Some l →
       ∃ m, mask (st' l) = Some m ∧
         ∀ x y, (x < CANVAS_SIZE)%nat → (y < CANVAS_SIZE)%nat →
           in_rect (rect (example_store l)) x y = false → cell m x y = Some 0) ∧
    (∀ x y i l m, (1 ≤ i)%nat → example_regions !! i = Some l →
       mask (st' l) = Some m → cell m x y = Some 1 →
       ∃ j k, (1 ≤ j)%nat ∧ example_regions !! j = Some k ∧
         in_rect (rect (example_store k)) x y = true).
Proof.
  apply (calc_cond_mask_within_rect example_store example_regions).
  - discriminate.
  - unfold example_regions. repeat constructor; rewrite ?CANVAS_SIZE_eq; simpl; lia.
Defined.

(** On regions whose [rect] is four integers the assertion is the only
    check: [calc_cond_mask] raises [AssertionError] on the empty list and
    returns on every other one.  Rectangles of another form are the matter of
    [calc_cond_mask_json]. *)
Theorem calc_cond_mask_validation st locs :
  (calc_cond_mask st locs = Raise AssertionError ↔ locs = []) ∧
  (locs ≠ [] ↔ ∃ st', calc_cond_mask st locs = Ok (st', locs)).
Proof.
  destruct locs as [|g tl].
  - rewrite calc_cond_mask_nil. split; [done|]. split; [done|]. by intros [? ?].
  - rewrite calc_cond_mask_cons. split; [done|]. split; [eauto|done].
Qed.

(** C6.  A non-global region whose rectangle has [a = b] or [c = d]
    receives the all-zero mask, and the call returns. *)
Theorem calc_cond_mask_zero_area st locs i l a b c d :
  (1 ≤ i)%nat →
  locs !! i = Some l →
  rect (st l) = (a, b, c, d) →
  a = b ∨ c = d →
  ∃ st',
    calc_cond_mask st locs = Ok (st', locs) ∧
    mask (st' l) = Some (torch_zeros CANVAS_SIZE CANVAS_SIZE).
Proof.
  intros Hi Hl Hr Hz. destruct locs as [|g tl]; [done|].
  destruct i as [|i]; [lia|]. cbn [lookup list_lookup] in Hl.
  destruct (calc_cond_mask_region st g tl i l Hl) as (f & _ & _ & _ & Hm).
  eexists. split; [apply calc_cond_mask_cons|].
  rewrite Hm, torch_zeros_tabulate. f_equal. apply tabulate_ext.
  intros x y _ _. apply region_mask_outside. rewrite Hr. by apply covers_empty.
Qed.

Lemma calc_cond_mask_zero_area_witness :
  ∃ st',
    calc_cond_mask odd_store example_regions = Ok (st', example_regions) ∧
    mask (st' 1%nat) = Some (torch_zeros CANVAS_SIZE CANVAS_SIZE).
Proof.
  apply (calc_cond_mask_zero_area odd_store example_regions 1 1%nat 5 5 5 5);
    [lia | reflexivity | reflexivity | by left].
Defined.

(** The masks [calc_cond_mask] computes depend on the [rect] fields only. *)
Lemma calc_cond_mask_rect_only st1 st2 g tl l :
  (∀ k, rect (st1 k) = rect (st2 k)) →
  l ∈ g :: tl →
  mask (loop_store (setitem_mask st1 g (torch_ones CANVAS_SIZE CANVAS_SIZE)) tl l) =
  mask (loop_store (setitem_mask st2 g (torch_ones CANVAS_SIZE CANVAS_SIZE)) tl l).
Proof.
  intros Hr Hl. destruct (decide (l ∈ tl)) as [Hin | Hout].
  - apply list_elem_of_lookup in Hin as [i Hi].
    destruct (calc_cond_mask_region st1 g tl i l Hi) as (f1 & _ & Hf1 & Hfirst1 & ->).
    destruct (calc_cond_mask_region st2 g tl i l Hi) as (f2 & _ & Hf2 & Hfirst2 & ->).
    assert (f1 = f2) as ->.
    { destruct (Nat.lt_total f1 f2) as [Hlt | [-> | Hlt]]; [|done|].
      - by apply Hfirst2 in Hlt.
      - by apply Hfirst1 in Hlt. }
    by rewrite Hr, (rects_ext st1 st2).
  - apply elem_of_cons in Hl as [-> | Hl]; [|done].
    rewrite !loop_store_notin by done. by rewrite !mask_setitem_mask_eq.
Qed.

Lemma cond_eq (r1 r2 : OmostCanvasCondition) :
  rect r1 = rect r2 → prefixes r1 = prefixes r2 → suffixes r1 = suffixes r2 →
  mask r1 = mask r2 → r1 = r2.
Proof. destruct r1, r2; simpl; congruence. Qed.

(** Every field but [mask] is left as it was, in every region object, and
    the objects outside the list are left alone. *)
Lemma calc_cond_mask_frame st g tl k :
  let st' := loop_store (setitem_mask st g (torch_ones CANVAS_SIZE CANVAS_SIZE)) tl in
  rect (st' k) = rect (st k) ∧
  prefixes (st' k) = prefixes (st k) ∧
  suffixes (st' k) = suffixes (st k) ∧
  (k ∉ g :: tl → st' k = st k).
Proof.
  intros st'. unfold st'.
  rewrite rect_loop_store, prefixes_loop_store, suffixes_loop_store.
  rewrite rect_setitem_mask, prefixes_setitem_mask, suffixes_setitem_mask.
  split_and!; [done..|].
  intros [Hg Htl]%not_elem_of_cons.
  by rewrite loop_store_notin, setitem_mask_ne.
Qed.

(** C7.  [calc_cond_mask] is idempotent: run on its own output it returns
    the same store, and run on the input with the masks cleared it computes
    the same masks, which depend on the [rect] fields only. *)
Theorem calc_cond_mask_idempotent st locs :
  locs ≠ [] →
  ∃ st',
    calc_cond_mask st locs = Ok (st', locs) ∧
    (∃ st'', calc_cond_mask st' locs = Ok (st'', locs) ∧ ∀ l, st'' l = st' l) ∧
    (∃ st'', calc_cond_mask (clear_masks st) locs = Ok (st'', locs) ∧
       ∀ l, l ∈ locs → mask (st'' l) = mask (st' l)).
Proof.
  intros Hne. destruct locs as [|g tl]; [done|].
  eexists. split; [apply calc_cond_mask_cons|]. split.
  - eexists. split; [apply calc_cond_mask_cons|]. intros l.
    set (st' := loop_store (setitem_mask st g _) tl).
    destruct (calc_cond_mask_frame st' g tl l) as (Hr & Hp & Hs & Hout).
    apply cond_eq; [done..|].
    destruct (decide (l ∈ g :: tl)) as [Hin | Hnotin].
    + rewrite (calc_cond_mask_rect_only st' st g tl l); [done| |done].
      intros k. apply (calc_cond_mask_frame st g tl k).
    + by rewrite Hout.
  - eexists. split; [apply calc_cond_mask_cons|]. intros l Hl.
    by apply calc_cond_mask_rect_only.
Qed.

Lemma calc_cond_mask_idempotent_witness :
  ∃ st',
    calc_cond_mask example_store example_regions = Ok (st', example_regions) ∧
    (∃ st'', calc_cond_mask st' example_regions = Ok (st'', example_regions) ∧
       ∀ l, st'' l = st' l) ∧
    (∃ st'', calc_cond_mask (clear_masks example_store) example_regions =
               Ok (st'', example_regions) ∧
       ∀ l, l ∈ example_regions → mask (st'' l) = mask (st' l)).
Proof.
  apply (calc_cond_mask_idempotent example_store example_regions). discriminate.
Defined.

(** C8.  On a non-empty list [calc_cond_mask] returns the same regions in
    the same order; each of them then carries a 90x90 mask, and [rect],
    [prefixes] and [suffixes] are unchanged in every region object. *)
Theorem calc_cond_mask_frame_effect st locs :
  locs ≠ [] →
  ∃ st',
    calc_cond_mask st locs = Ok (st', locs) ∧
    (∀ l, l ∈ locs → ∃ m, mask (st' l) = Some m ∧ shape m CANVAS_SIZE CANVAS_SIZE) ∧
    (∀ l, rect (st' l) = rect (st l) ∧
          prefixes (st' l) = prefixes (st l) ∧
          suffixes (st' l) = suffixes (st l)) ∧
    (∀ l, l ∉ locs → st' l = st l).
Proof.
  intros Hne. destruct locs as [|g tl]; [done|].
  eexists. split; [apply calc_cond_mask_cons|]. split_and!.
  - intros l Hl. destruct (decide (l ∈ tl)) as [Hin | Hout].
    + apply list_elem_of_lookup in Hin as [i Hi].
      destruct (calc_cond_mask_region st g tl i l Hi) as (f & _ & _ & _ & Hm).
      eexists. split; [exact Hm|]. apply shape_tabulate.
    + apply elem_of_cons in Hl as [-> | Hl]; [|done].
      rewrite loop_store_notin by done. rewrite mask_setitem_mask_eq.
      eexists. split; [done|]. rewrite torch_ones_tabulate. apply shape_tabulate.
  - intros l. destruct (calc_cond_mask_frame st g tl l) as (? & ? & ? & _). done.
  - intros l. apply (calc_cond_mask_frame st g tl l).
Qed.

Lemma calc_cond_mask_frame_effect_witness :
  ∃ st',
    calc_cond_mask example_store example_regions = Ok (st', example_regions) ∧
    (∀ l, l ∈ example_regions →
       ∃ m, mask (st' l) = Some m ∧ shape m CANVAS_SIZE CANVAS_SIZE) ∧
    (∀ l, rect (st' l) = rect (example_store l) ∧
          prefixes (st' l) = prefixes (example_store l) ∧
          suffixes (st' l) = suffixes (example_store l)) ∧
    (∀ l, l ∉ example_regions → st' l = example_store l).
Proof.
  apply (calc_cond_mask_frame_effect example_store example_regions). discriminate.
Defined.

End Claims.

(** ** Conditioning *)

Lemma string_app_assoc (s1 s2 s3 : string) :
  (s1 +:+ s2) +:+ s3 = s1 +:+ s2 +:+ s3.
Proof.
  induction s1 as [|a s1 IH]; [done|].
  change (String a ((s1 +:+ s2) +:+ s3) = String a (s1 +:+ s2 +:+ s3)).
  by rewrite IH.
Qed.

(** ["".join(l + [s])] is ["".join(l)] followed by [s]. *)
Lemma string_concat_snoc (l : list string) (s : string) :
  String.concat "" (l ++ [s]) = String.concat "" l +:+ s.
Proof.
  induction l as [|x l IH]; [done|].
  destruct l as [|x' l]; [done|].
  change (x +:+ String.concat "" ((x' :: l) ++ [s]) =
          (x +:+ String.concat "" (x' :: l)) +:+ s).
  by rewrite IH, string_app_assoc.
Qed.

Section ConditioningFacts.
Context {CLIP tensor pooled strength area_cond : Type}.
Variable clip_text_encode : CLIP → string → list (tensor * pooled).
Variable torch_cat : list tensor → result tensor.
Variable cond_set_mask : list (tensor * pooled) → Tensor → strength → list area_cond.

Implicit Types (clip : CLIP) (r : OmostCanvasCondition) (st : store).

Lemma region_prefixes_retained i r : region_prefixes i r = retained_prefixes i r.
Proof. by destruct i. Qed.

(** With an encoder that yields one entry per prompt, the loop appends the
    entry of each suffix's prompt, in order. *)
Lemma encode_loop_ok clip (enc1 : string → tensor * pooled) prefixes suffixes conds :
  (∀ p, clip_text_encode clip p = [enc1 p]) →
  encode_loop clip_text_encode clip prefixes suffixes conds =
  Ok (conds ++ ((λ s, enc1 (String.concat "" prefixes +:+ s)) <$> suffixes)).
Proof.
  intros Henc. revert conds.
  induction suffixes as [|s ss IH]; intros conds.
  - simpl. by rewrite app_nil_r.
  - cbn [encode_loop]. rewrite Henc. cbn. rewrite IH.
    rewrite string_concat_snoc. by rewrite <- app_assoc.
Qed.

(** C9.  With an encoder that yields one entry [enc1 p] per prompt [p], and
    a region at index [i] whose suffixes are [s0 :: ss], the conditioning
    [layout_cond] obtains from [encode_bag_of_subprompts] has one prompt per
    suffix, the retained prefixes concatenated with that suffix (the first
    prefix is dropped unless [i = 0]); the prompts are encoded one by one,
    their embeddings are concatenated in order, and the pooled output is the
    one of the first suffix. *)
Theorem encode_bag_of_subprompts_spec clip (enc1 : string → tensor * pooled)
    i r s0 ss :
  (∀ p, clip_text_encode clip p = [enc1 p]) →
  suffixes r = s0 :: ss →
  encode_bag_of_subprompts clip_text_encode torch_cat clip
    (region_prefixes i r) (suffixes r) =
  (cat ← torch_cat ((λ s, fst (enc1 (complete_prompt i r s))) <$> s0 :: ss);
   Ok [(cat, snd (enc1 (complete_prompt i r s0)))]).
Proof.
  intros Henc Hs. unfold encode_bag_of_subprompts.
  rewrite (encode_loop_ok clip enc1) by done.
  rewrite region_prefixes_retained, Hs, app_nil_l.
  cbn [mbind result_bind]. rewrite <- list_fmap_compose.
  unfold complete_prompt, compose. by destruct (torch_cat _).
Qed.

Lemma encode_bag_of_subprompts_nil clip prefixes :
  encode_bag_of_subprompts clip_text_encode torch_cat clip prefixes [] =
  (_ ← torch_cat []; Raise IndexError).
Proof. unfold encode_bag_of_subprompts. cbn. by destruct (torch_cat []). Qed.

Lemma layout_loop_empty_suffixes st clip (gs rs : strength) i locs positive l :
  l ∈ locs → suffixes (st l) = [] →
  ∃ e, layout_loop clip_text_encode torch_cat cond_set_mask st clip gs rs
         i locs positive = Raise e.
Proof.
  intros Hl Hs. revert i positive.
  induction locs as [|k locs IH]; intros i positive; [by apply elem_of_nil in Hl|].
  cbn [layout_loop].
  destruct (decide (k = l)) as [-> | Hne].
  - rewrite Hs, encode_bag_of_subprompts_nil.
    destruct (torch_cat []); cbn; eauto.
  - apply elem_of_cons in Hl as [-> | Hl]; [done|].
    destruct (encode_bag_of_subprompts _ _ _ _ _); cbn; [|eauto].
    destruct (getitem_mask _); cbn; [|eauto].
    destruct (assert _) as [[]|]; cbn; [|eauto].
    by apply IH.
Qed.

(** C10.  For a region whose [suffixes] list is empty,
    [encode_bag_of_subprompts] raises: once [torch.cat] has been called on the
    empty list, [conds[0]] raises [IndexError].  No conditioning is returned,
    and [layout_cond] raises on every list that holds such a region. *)
Theorem encode_bag_of_subprompts_empty_suffixes st locs clip (gs rs : strength)
    positive l prefixes :
  l ∈ locs →
  suffixes (st l) = [] →
  encode_bag_of_subprompts clip_text_encode torch_cat clip prefixes
    (suffixes (st l)) = (_ ← torch_cat []; Raise IndexError) ∧
  (∃ e, encode_bag_of_subprompts clip_text_encode torch_cat clip prefixes
          (suffixes (st l)) = Raise e) ∧
  (∃ e, layout_cond clip_text_encode torch_cat cond_set_mask st locs clip gs rs
          positive = Raise e).
Proof.
  intros Hl Hs. rewrite Hs, encode_bag_of_subprompts_nil. split; [done|]. split.
  - destruct (torch_cat []); cbn; eauto.
  - unfold layout_cond. destruct locs as [|g tl]; [by apply elem_of_nil in Hl|].
    rewrite calc_cond_mask_cons. cbn [mbind result_bind].
    edestruct (layout_loop_empty_suffixes) as [e ->]; [exact Hl| |by eauto].
    by rewrite suffixes_loop_store, suffixes_setitem_mask.
Qed.

End ConditioningFacts.

Lemma encode_bag_of_subprompts_spec_witness :
  encode_bag_of_subprompts example_encode example_cat tt
    (region_prefixes 2 (example_store 2%nat)) (suffixes (example_store 2%nat)) =
  (cat ← example_cat
           ((λ s, fst (example_entry (complete_prompt 2 (example_store 2%nat) s)))
              <$> ["u"; "v"]);
   Ok [(cat, snd (example_entry (complete_prompt 2 (example_store 2%nat) "u")))]).
Proof.
  apply (encode_bag_of_subprompts_spec example_encode example_cat tt
           example_entry 2 (example_store 2%nat) "u" ["v"]).
  - intros p. reflexivity.
  - reflexivity.
Defined.

Lemma encode_bag_of_subprompts_empty_suffixes_witness :
  encode_bag_of_subprompts example_encode example_cat tt ["g"]
    (suffixes (odd_store 1%nat)) = (_ ← example_cat []; Raise IndexError) ∧
  (∃ e, encode_bag_of_subprompts example_encode example_cat tt ["g"]
          (suffixes (odd_store 1%nat)) = Raise e) ∧
  (∃ e, layout_cond example_encode example_cat example_set_mask odd_store
          example_regions tt 20 80 None = Raise e).
Proof.
  apply (encode_bag_of_subprompts_empty_suffixes example_encode example_cat
           example_set_mask odd_store example_regions tt 20 80 None 1%nat ["g"]).
  - apply (bool_decide_unpack _). by vm_compute.
  - reflexivity.
Defined.

(** ** Worked examples *)

(** The example of the specification: the global mask is all ones, the block
    listed last keeps its whole rectangle, and the region over the canvas
    loses the block. *)
Example calc_cond_mask_canvas_example :
  ∃ st',
    calc_cond_mask example_store example_regions = Ok (st', example_regions) ∧
    mask (st' 0%nat) = Some (tabulate (λ _ _, 1)) ∧
    mask (st' 1%nat) =
      Some (tabulate (λ x y, if in_rect (10, 20, 10, 20) x y then 0 else 1)) ∧
    mask (st' 2%nat) =
      Some (tabulate (λ x y, if in_rect (10, 20, 10, 20) x y then 1 else 0)).
Proof.
  eexists. split; [apply calc_cond_mask_cons|]. by vm_compute.
Qed.

(** The regions are dicts, written in place: a dict listed twice has one
    mask, the one written last.  Here the object at index 0 is listed again at
    index 1, and the loop replaces its all-ones mask. *)
Example calc_cond_mask_shared_object :
  ∃ st',
    calc_cond_mask example_store [2; 2]%nat = Ok (st', [2; 2]%nat) ∧
    mask (st' 2%nat) =
      Some (tabulate (λ x y, if in_rect (10, 20, 10, 20) x y then 1 else 0)).
Proof.
  eexists. split; [apply calc_cond_mask_cons|]. by vm_compute.
Qed.

(** Bounds that are negative or beyond the canvas are taken as Python takes
    them: [-5:200] selects the rows 85 to 89 and [-200:5] the columns 0 to
    4. *)
Example calc_cond_mask_any_bounds :
  ∃ st' m,
    calc_cond_mask odd_store example_regions = Ok (st', example_regions) ∧
    mask (st' 2%nat) = Some m ∧
    cell m 85 0 = Some 1 ∧ cell m 89 4 = Some 1 ∧
    cell m 84 0 = Some 0 ∧ cell m 89 5 = Some 0.
Proof.
  eexists _, _. split; [apply calc_cond_mask_cons|]. by vm_compute.
Qed.

(** The prompts of the block of the example, and its conditioning. *)
Example encode_bag_of_subprompts_example :
  encode_bag_of_subprompts example_encode example_cat tt
    (region_prefixes 2 (example_store 2%nat)) (suffixes (example_store 2%nat)) =
  Ok [(["qu"; "qv"], "qu")].
Proof. reflexivity. Qed.

(** [layout_cond] on the example of the specification: one entry per region,
    the global prefix dropped from the prompts of the regions. *)
Example layout_cond_example :
  ∃ st',
    layout_cond example_encode example_cat example_set_mask example_store
      example_regions tt 20 80 None =
    Ok (st', [(["gs"], "gs", 20); (["pt"], "pt", 80); (["qu"; "qv"], "qu", 80)]).
Proof.
  eexists. unfold layout_cond, example_regions.
  rewrite calc_cond_mask_cons. by vm_compute.
Qed.

(** With the concatenation of [torch] the empty suffix list is refused by
    [torch.cat] before [conds[0]] is reached. *)
Example encode_bag_of_subprompts_empty_example :
  encode_bag_of_subprompts example_encode example_cat tt ["g"] [] =
  Raise RuntimeError.
Proof. reflexivity. Qed.

(** * Further properties *)

(** ** More on the masks *)

Section MoreMasks.
Implicit Types (st : store) (l g k : loc) (locs tl ls : list loc) (r : Rect).

(** In a list of distinct objects the first position of a region is its
    only one. *)
Lemma calc_cond_mask_region_NoDup st g tl i l :
  NoDup tl → tl !! i = Some l →
  mask (loop_store (setitem_mask st g (torch_ones CANVAS_SIZE CANVAS_SIZE)) tl l) =
  Some (tabulate (region_mask (rect (st l)) (rects st (drop (S i) tl)))).
Proof.
  intros Hnd Hl.
  destruct (calc_cond_mask_region st g tl i l Hl) as (f & _ & Hfl & _ & Hm).
  by assert (f = i) as -> by (by eapply NoDup_lookup).
Qed.

Lemma claimed_forallb st ls x y :
  negb (claimed (rects st ls) x y) =
  forallb (λ k, negb (covers (rect (st k)) x y)) ls.
Proof.
  induction ls as [|k ls IH]; [done|].
  unfold claimed, rects in *. rewrite fmap_cons. cbn [existsb forallb].
  by rewrite negb_orb, IH.
Qed.

Lemma claimed_existsb st ls x y :
  claimed (rects st ls) x y = existsb (λ k, covers (rect (st k)) x y) ls.
Proof.
  induction ls as [|k ls IH]; [done|].
  unfold claimed, rects in *. rewrite fmap_cons. cbn [existsb]. by rewrite IH.
Qed.

(** X1.  For any four integers as bounds, on a list of distinct region
    objects, the mask of the region at index [i >= 1] is 90x90 and is 1
    exactly at the cells that its slices [a:b, c:d] select and that the slices
    of no region listed after it select; negative bounds count from the end
    and all bounds are clamped to the canvas. *)
Theorem calc_cond_mask_any_bounds_mask st locs i l :
  NoDup locs →
  (1 ≤ i)%nat →
  locs !! i = Some l →
  ∃ st' m,
    calc_cond_mask st locs = Ok (st', locs) ∧
    mask (st' l) = Some m ∧
    shape m CANVAS_SIZE CANVAS_SIZE ∧
    ∀ x y, (x < CANVAS_SIZE)%nat → (y < CANVAS_SIZE)%nat →
      cell m x y =
      Some (if covers (rect (st l)) x y &&
               forallb (λ k, negb (covers (rect (st k)) x y)) (drop (S i) locs)
            then 1 else 0).
Proof.
  intros Hnd Hi Hl.
  destruct locs as [|g tl]; [done|]. destruct i as [|i]; [lia|].
  cbn [lookup list_lookup] in Hl. cbn [drop].
  apply NoDup_cons in Hnd as [_ Hnd].
  eexists _, _. split; [apply calc_cond_mask_cons|].
  split; [by apply calc_cond_mask_region_NoDup|].
  split; [apply shape_tabulate|].
  intros x y Hx Hy. rewrite cell_tabulate by done.
  unfold region_mask. by rewrite claimed_forallb.
Qed.

Lemma calc_cond_mask_any_bounds_mask_witness :
  ∃ st' m,
    calc_cond_mask odd_store example_regions = Ok (st', example_regions) ∧
    mask (st' 2%nat) = Some m ∧
    shape m CANVAS_SIZE CANVAS_SIZE ∧
    ∀ x y, (x < CANVAS_SIZE)%nat → (y < CANVAS_SIZE)%nat →
      cell m x y =
      Some (if covers (-5, 200, -200, 5) x y &&
               forallb (λ k, negb (covers (rect (odd_store k)) x y)) []
            then 1 else 0).
Proof.
  apply (calc_cond_mask_any_bounds_mask odd_store example_regions 2 2%nat).
  - apply (bool_decide_unpack _). by vm_compute.
  - lia.
  - reflexivity.
Defined.

(** X2.  Whatever the rectangles, and whether or not region objects are
    shared, every cell of every mask [calc_cond_mask] assigns is 0 or 1:
    [canvas_state += mask] never adds to a claimed cell. *)
Theorem calc_cond_mask_binary st locs l :
  l ∈ locs →
  ∃ st' m,
    calc_cond_mask st locs = Ok (st', locs) ∧
    mask (st' l) = Some m ∧
    ∀ x y v, cell m x y = Some v → v = 0 ∨ v = 1.
Proof.
  intros Hl. destruct locs as [|g tl]; [by apply elem_of_nil in Hl|].
  destruct (decide (l ∈ tl)) as [Hin | Hout].
  - apply list_elem_of_lookup in Hin as [i Hi].
    destruct (calc_cond_mask_region st g tl i l Hi) as (f & _ & _ & _ & Hm).
    eexists _, _. split; [apply calc_cond_mask_cons|]. split; [exact Hm|].
    intros x y v (_ & _ & ->)%cell_tabulate_Some.
    unfold region_mask. destruct (_ && _); auto.
  - apply elem_of_cons in Hl as [-> | Hl]; [|done].
    eexists _, _. split; [apply calc_cond_mask_cons|].
    split; [by rewrite loop_store_notin, mask_setitem_mask_eq|].
    rewrite torch_ones_tabulate.
    intros x y v (_ & _ & ->)%cell_tabulate_Some. auto.
Qed.

Lemma calc_cond_mask_binary_witness :
  ∃ st' m,
    calc_cond_mask odd_store example_regions = Ok (st', example_regions) ∧
    mask (st' 2%nat) = Some m ∧
    ∀ x y v, cell m x y = Some v → v = 0 ∨ v = 1.
Proof.
  apply (calc_cond_mask_binary odd_store example_regions 2%nat).
  apply (bool_decide_unpack _). by vm_compute.
Defined.

Lemma total_weight_occupancy st st' ls x y :
  (∀ j l, ls !! j = Some l →
     mask_value st' l x y = region_mask (rect (st l)) (rects st (drop (S j) ls)) x y) →
  total_weight st' ls x y = occupancy (rects st ls) x y.
Proof.
  induction ls as [|l ls IH]; intros Hv; [done|].
  cbn [total_weight foldr]. fold (total_weight st' ls x y).
  rewrite (Hv 0%nat l) by done. rewrite IH.
  - cbn [drop]. unfold region_mask, occupancy, rects. rewrite fmap_cons.
    cbn [claimed existsb]. fold (claimed ((λ k, rect (st k)) <$> ls) x y).
    by destruct (covers _ x y), (claimed _ x y).
  - intros j k Hk. apply (Hv (S j) k Hk).
Qed.

(** X3.  On a list of distinct region objects the masks of the non-global
    regions add up, at each cell, to 1 if the slices of some non-global region
    select the cell and to 0 otherwise: each such cell belongs to exactly one
    non-global region. *)
Theorem calc_cond_mask_weights_sum st locs :
  NoDup locs →
  locs ≠ [] →
  ∃ st',
    calc_cond_mask st locs = Ok (st', locs) ∧
    ∀ x y, (x < CANVAS_SIZE)%nat → (y < CANVAS_SIZE)%nat →
      total_weight st' (drop 1 locs) x y =
      if existsb (λ k, covers (rect (st k)) x y) (drop 1 locs) then 1 else 0.
Proof.
  intros Hnd Hne. destruct locs as [|g tl]; [done|].
  apply NoDup_cons in Hnd as [_ Hnd].
  eexists. split; [apply calc_cond_mask_cons|]. cbn [drop].
  intros x y Hx Hy. rewrite <- claimed_existsb.
  apply total_weight_occupancy. intros j l Hl. unfold mask_value.
  rewrite (calc_cond_mask_region_NoDup st g tl j l) by done.
  cbn [mbind option_bind]. by rewrite cell_tabulate.
Qed.

Lemma calc_cond_mask_weights_sum_witness :
  ∃ st',
    calc_cond_mask example_store example_regions = Ok (st', example_regions) ∧
    ∀ x y, (x < CANVAS_SIZE)%nat → (y < CANVAS_SIZE)%nat →
      total_weight st' [1; 2]%nat x y =
      if existsb (λ k, covers (rect (example_store k)) x y) [1; 2]%nat
      then 1 else 0.
Proof.
  apply (calc_cond_mask_weights_sum example_store example_regions).
  - apply (bool_decide_unpack _). by vm_compute.
  - discriminate.
Defined.

Lemma claimed_ext st1 st2 ls x y :
  (∀ k, k ∈ ls → covers (rect (st1 k)) x y = covers (rect (st2 k)) x y) →
  claimed (rects st1 ls) x y = claimed (rects st2 ls) x y.
Proof.
  intros Hc. rewrite !claimed_existsb.
  induction ls as [|k ls IH]; [done|]. cbn [existsb].
  rewrite Hc by left. rewrite IH; [done|]. intros k' Hk'. apply Hc. by right.
Qed.

(** The masks depend on the rectangles of the regions listed after the first
    one only through the cells their slices select. *)
Lemma calc_cond_mask_covers_only st1 st2 g tl l :
  (∀ k x y, k ∈ tl → covers (rect (st1 k)) x y = covers (rect (st2 k)) x y) →
  l ∈ g :: tl →
  mask (loop_store (setitem_mask st1 g (torch_ones CANVAS_SIZE CANVAS_SIZE)) tl l) =
  mask (loop_store (setitem_mask st2 g (torch_ones CANVAS_SIZE CANVAS_SIZE)) tl l).
Proof.
  intros Hc Hl. destruct (decide (l ∈ tl)) as [Hin | Hout].
  - apply list_elem_of_lookup in Hin as [i Hi].
    destruct (calc_cond_mask_region st1 g tl i l Hi) as (f1 & _ & Hf1 & Hfirst1 & ->).
    destruct (calc_cond_mask_region st2 g tl i l Hi) as (f2 & _ & Hf2 & Hfirst2 & ->).
    assert (f1 = f2) as ->.
    { destruct (Nat.lt_total f1 f2) as [Hlt | [-> | Hlt]]; [|done|].
      - by apply Hfirst2 in Hlt.
      - by apply Hfirst1 in Hlt. }
    f_equal. apply tabulate_ext. intros x y _ _. unfold region_mask.
    rewrite (Hc l x y) by (by eapply list_elem_of_lookup_2).
    rewrite (claimed_ext st1 st2); [done|].
    intros k Hk. apply Hc. by eapply subseteq_drop.
  - apply elem_of_cons in Hl as [-> | Hl]; [|done].
    rewrite !loop_store_notin by done. by rewrite !mask_setitem_mask_eq.
Qed.

Lemma slice_bound_le (i : Z) (len : nat) : (slice_bound i len ≤ len)%nat.
Proof. unfold slice_bound. case_bool_decide; lia. Qed.

Lemma slice_bound_of_nat (n len : nat) :
  (n ≤ len)%nat → slice_bound (Z.of_nat n) len = n.
Proof. intros Hn. unfold slice_bound. rewrite bool_decide_false by lia. lia. Qed.

Lemma in_range_clamp_rect r : in_range (clamp_rect r).
Proof.
  destruct r as [[[a b] c] d]. unfold in_range, clamp_rect.
  pose proof (slice_bound_le a CANVAS_SIZE). pose proof (slice_bound_le b CANVAS_SIZE).
  pose proof (slice_bound_le c CANVAS_SIZE). pose proof (slice_bound_le d CANVAS_SIZE).
  lia.
Qed.

Lemma covers_clamp_rect r x y : covers (clamp_rect r) x y = covers r x y.
Proof.
  destruct r as [[[a b] c] d]. unfold covers, clamp_rect, in_slice.
  pose proof (slice_bound_le a CANVAS_SIZE). pose proof (slice_bound_le b CANVAS_SIZE).
  pose proof (slice_bound_le c CANVAS_SIZE). pose proof (slice_bound_le d CANVAS_SIZE).
  rewrite !slice_bound_of_nat by lia.
  apply eq_true_iff_eq. rewrite !andb_true_iff, !bool_decide_eq_true. lia.
Qed.

(** X4.  Out-of-range bounds are not an error and act as the bounds the
    slice rules turn them into: the masks are those computed for the clamped
    rectangles, which all lie within the canvas. *)
Theorem calc_cond_mask_clamped st locs :
  locs ≠ [] →
  ∃ st1 st2,
    calc_cond_mask st locs = Ok (st1, locs) ∧
    calc_cond_mask (clamp_store st) locs = Ok (st2, locs) ∧
    (∀ l, in_range (rect (clamp_store st l))) ∧
    (∀ l, l ∈ locs → mask (st2 l) = mask (st1 l)).
Proof.
  intros Hne. destruct locs as [|g tl]; [done|].
  eexists _, _. split; [apply calc_cond_mask_cons|].
  split; [apply calc_cond_mask_cons|].
  split; [intros l; apply in_range_clamp_rect|].
  intros l Hl. apply calc_cond_mask_covers_only; [|done].
  intros k x y _. apply covers_clamp_rect.
Qed.

Lemma calc_cond_mask_clamped_witness :
  ∃ st1 st2,
    calc_cond_mask odd_store example_regions = Ok (st1, example_regions) ∧
    calc_cond_mask (clamp_store odd_store) example_regions =
      Ok (st2, example_regions) ∧
    (∀ l, in_range (rect (clamp_store odd_store l))) ∧
    (∀ l, l ∈ example_regions → mask (st2 l) = mask (st1 l)).
Proof.
  apply (calc_cond_mask_clamped odd_store example_regions). discriminate.
Defined.

(** X5.  The masks are a function of the rectangles of the regions listed
    after the first one: the rectangle of the global region, the prefixes and
    suffixes, and the masks the regions carried before the call play no
    part. *)
Theorem calc_cond_mask_reads_later_rects_only st1 st2 locs :
  locs ≠ [] →
  (∀ k, k ∈ drop 1 locs → rect (st1 k) = rect (st2 k)) →
  ∃ st1' st2',
    calc_cond_mask st1 locs = Ok (st1', locs) ∧
    calc_cond_mask st2 locs = Ok (st2', locs) ∧
    ∀ l, l ∈ locs → mask (st1' l) = mask (st2' l).
Proof.
  intros Hne Hr. destruct locs as [|g tl]; [done|]. cbn [drop] in Hr.
  eexists _, _. split; [apply calc_cond_mask_cons|].
  split; [apply calc_cond_mask_cons|].
  intros l Hl. apply calc_cond_mask_covers_only; [|done].
  intros k x y Hk. by rewrite Hr.
Qed.

Lemma calc_cond_mask_reads_later_rects_only_witness :
  ∃ st1' st2',
    calc_cond_mask example_store example_regions = Ok (st1', example_regions) ∧
    calc_cond_mask retitled_store example_regions = Ok (st2', example_regions) ∧
    ∀ l, l ∈ example_regions → mask (st1' l) = mask (st2' l).
Proof.
  apply (calc_cond_mask_reads_later_rects_only example_store retitled_store
           example_regions).
  - discriminate.
  - intros k Hk. cbn in Hk.
    repeat (apply elem_of_cons in Hk as [-> | Hk]; [reflexivity|]).
    by apply elem_of_nil in Hk.
Defined.

(** X6.  A region inserted right after the global one is processed last by
    the loop: every other region object ends exactly as without it, and the
    inserted region gets the cells of its slices that the slices of no region
    listed after it select. *)
Theorem calc_cond_mask_insert_second st g tl n :
  ∃ st1 st2,
    calc_cond_mask st (g :: tl) = Ok (st1, g :: tl) ∧
    calc_cond_mask st (g :: n :: tl) = Ok (st2, g :: n :: tl) ∧
    (∀ l, l ≠ n → st2 l = st1 l) ∧
    mask (st2 n) =
      Some (tabulate (λ x y,
        if covers (rect (st n)) x y &&
           forallb (λ k, negb (covers (rect (st k)) x y)) tl
        then 1 else 0)).
Proof.
  eexists _, _. split; [apply calc_cond_mask_cons|].
  split; [apply calc_cond_mask_cons|]. split.
  - intros l Hl. cbn [loop_store]. by rewrite setitem_mask_ne.
  - cbn [loop_store]. rewrite mask_setitem_mask_eq, rect_setitem_mask.
    f_equal. apply tabulate_ext. intros x y _ _. unfold region_mask.
    rewrite (rects_ext _ st) by (intros; apply rect_setitem_mask).
    by rewrite claimed_forallb.
Qed.

(** X7.  A new region appended to the list is processed first: it gets every
    cell its slices select, and each other non-global mask is what it was
    without the new region, less those cells. *)
Theorem calc_cond_mask_append st g tl n i l :
  n ∉ g :: tl →
  tl !! i = Some l →
  ∃ st1 st2 m1 m2 mn,
    calc_cond_mask st (g :: tl) = Ok (st1, g :: tl) ∧
    calc_cond_mask st (g :: tl ++ [n]) = Ok (st2, g :: tl ++ [n]) ∧
    mask (st1 l) = Some m1 ∧ mask (st2 l) = Some m2 ∧ mask (st2 n) = Some mn ∧
    ∀ x y, (x < CANVAS_SIZE)%nat → (y < CANVAS_SIZE)%nat →
      cell mn x y = Some (if covers (rect (st n)) x y then 1 else 0) ∧
      cell m2 x y = if covers (rect (st n)) x y then Some 0 else cell m1 x y.
Proof.
  intros [Hng Hn]%not_elem_of_cons Hl.
  assert (l ≠ n) as Hln by (intros ->; by apply list_elem_of_lookup_2 in Hl).
  destruct (calc_cond_mask_region st g tl i l Hl) as (f1 & _ & Hf1 & Hfirst1 & Hm1).
  assert ((tl ++ [n]) !! i = Some l) as Hl2 by (by apply lookup_app_l_Some).
  destruct (calc_cond_mask_region st g (tl ++ [n]) i l Hl2)
    as (f2 & Hf2i & Hf2 & Hfirst2 & Hm2).
  apply lookup_lt_Some in Hl as Hi.
  assert (f2 < length tl)%nat as Hf2len by lia.
  rewrite lookup_app_l in Hf2 by done.
  assert (f1 = f2) as ->.
  { destruct (Nat.lt_total f1 f2) as [Hlt | [-> | Hlt]]; [|done|].
    - pose proof (Hfirst2 _ Hlt) as Hne. by rewrite lookup_app_l in Hne by lia.
    - by apply Hfirst1 in Hlt. }
  assert ((tl ++ [n]) !! length tl = Some n) as Hnl.
  { by rewrite lookup_app_r, Nat.sub_diag by lia. }
  destruct (calc_cond_mask_region st g (tl ++ [n]) (length tl) n Hnl)
    as (fn & Hfnl & Hfn & _ & Hmn).
  assert (fn = length tl) as ->.
  { destruct (decide (fn = length tl)) as [|Hne]; [done|].
    rewrite lookup_app_l in Hfn by lia. by apply list_elem_of_lookup_2 in Hfn. }
  eexists _, _, _, _, _. split; [apply calc_cond_mask_cons|].
  split; [apply (calc_cond_mask_cons st g (tl ++ [n]))|].
  split; [exact Hm1|]. split; [exact Hm2|]. split; [exact Hmn|].
  intros x y Hx Hy. rewrite !cell_tabulate by done. unfold region_mask.
  rewrite (drop_ge (tl ++ [n]) (S (length tl)))
    by (rewrite length_app; simpl; lia).
  rewrite drop_app_le by lia. unfold rects. rewrite fmap_app.
  unfold claimed. rewrite existsb_app. cbn [fmap list_fmap existsb].
  rewrite andb_true_r, orb_false_r.
  split; [done|].
  destruct (covers (rect (st n)) x y); [|by rewrite orb_false_r].
  by rewrite orb_true_r, andb_false_r.
Qed.

Lemma calc_cond_mask_append_witness :
  ∃ st1 st2 m1 m2 mn,
    calc_cond_mask example_store [0; 1]%nat = Ok (st1, [0; 1]%nat) ∧
    calc_cond_mask example_store [0; 1; 2]%nat = Ok (st2, [0; 1; 2]%nat) ∧
    mask (st1 1%nat) = Some m1 ∧ mask (st2 1%nat) = Some m2 ∧
    mask (st2 2%nat) = Some mn ∧
    ∀ x y, (x < CANVAS_SIZE)%nat → (y < CANVAS_SIZE)%nat →
      cell mn x y = Some (if covers (10, 20, 10, 20) x y then 1 else 0) ∧
      cell m2 x y = if covers (10, 20, 10, 20) x y then Some 0 else cell m1 x y.
Proof.
  apply (calc_cond_mask_append example_store 0%nat [1%nat] 2%nat 0 1%nat).
  - apply (bool_decide_unpack _). by vm_compute.
  - reflexivity.
Defined.

End MoreMasks.

(** ** More on the conditioning *)

Section MoreConditioning.
Context {CLIP tensor pooled strength area_cond : Type}.
Variable clip_text_encode : CLIP → string → list (tensor * pooled).
Variable torch_cat : list tensor → result tensor.
Variable cond_set_mask : list (tensor * pooled) → Tensor → strength → list area_cond.

Implicit Types (clip : CLIP) (r : OmostCanvasCondition) (st : store)
  (conds : list (tensor * pooled)) (locs : list loc).


Lemma assert_length_one {A} (l : list A) :
  assert (bool_decide (length l = 1%nat)) = Ok tt ↔ ∃ x, l = [x].
Proof.
  unfold assert. case_bool_decide as Hl.
  - split; [|done]. intros _. destruct l as [|x [|??]]; simplify_eq/=. eauto.
  - split; [done|]. intros [x ->]. done.
Qed.

Lemma assert_length_not_one {A} (l : list A) :
  length l ≠ 1%nat → assert (bool_decide (length l = 1%nat)) = Raise AssertionError.
Proof. intros Hl. unfold assert. by rewrite bool_decide_false. Qed.

Lemma encode_loop_raises clip prefixes suffixes conds s :
  s ∈ suffixes →
  length (clip_text_encode clip (String.concat "" (prefixes ++ [s]))) ≠ 1%nat →
  encode_loop clip_text_encode clip prefixes suffixes conds = Raise AssertionError.
Proof.
  intros Hs Hbad. revert conds.
  induction suffixes as [|t ts IH]; intros conds; [by apply elem_of_nil in Hs|].
  cbn [encode_loop].
  destruct (decide (length (clip_text_encode clip (String.concat "" (prefixes ++ [t]))) = 1%nat))
    as [Hone | Hnot].
  - apply elem_of_cons in Hs as [-> | Hs]; [done|].
    unfold assert. rewrite bool_decide_true by done. cbn. by apply IH.
  - by rewrite assert_length_not_one.
Qed.

(** X8.  If the encoder yields anything but exactly one entry for the prompt
    of some suffix, [encode_bag_of_subprompts] raises [AssertionError]: it
    never joins a prompt that has several entries, or none. *)
Theorem encode_bag_of_subprompts_asserts_one_entry clip prefixes suffixes s :
  s ∈ suffixes →
  length (clip_text_encode clip (String.concat "" (prefixes ++ [s]))) ≠ 1%nat →
  encode_bag_of_subprompts clip_text_encode torch_cat clip prefixes suffixes = Raise AssertionError.
Proof.
  intros Hs Hbad. unfold encode_bag_of_subprompts.
  by rewrite (encode_loop_raises clip prefixes suffixes [] s).
Qed.

Lemma encode_loop_returns clip prefixes suffixes conds res :
  encode_loop clip_text_encode clip prefixes suffixes conds = Ok res ↔
  ∃ new,
    Forall2 (λ s c, clip_text_encode clip (String.concat "" (prefixes ++ [s])) = [c])
      suffixes new ∧
    res = conds ++ new.
Proof.
  revert conds. induction suffixes as [|t ts IH]; intros conds.
  - cbn [encode_loop]. split.
    + intros [= <-]. exists []. by rewrite app_nil_r.
    + intros (new & ->%Forall2_nil_inv_l & ->). by rewrite app_nil_r.
  - cbn [encode_loop].
    destruct (assert _) as [[]|e] eqn:Ha; cbn [mbind result_bind].
    + apply assert_length_one in Ha as [c Hc]. rewrite IH, Hc. split.
      * intros (new & Hnew & ->). exists (c :: new).
        split; [by constructor|]. by rewrite <- app_assoc.
      * intros (new & Hnew & ->).
        apply Forall2_cons_inv_l in Hnew as (c' & new' & Hc' & Hnew' & ->).
        exists new'. split; [done|]. rewrite <- app_assoc.
        rewrite Hc in Hc'. by simplify_eq.
    + split; [done|]. intros (new & Hnew & _).
      apply Forall2_cons_inv_l in Hnew as (c' & new' & Hc' & _ & _).
      assert (assert (bool_decide (length (clip_text_encode clip (String.concat "" (prefixes ++ [t]))) = 1%nat)) = Ok tt) as Hok.
      { apply assert_length_one. eauto. }
      congruence.
Qed.

(** X9.  [encode_bag_of_subprompts] returns exactly when every suffix's
    prompt encodes to one entry, [torch.cat] accepts the embeddings and there
    is a first entry; what it returns is then a single pair: the
    concatenation, with the pooled output of the first entry. *)
Theorem encode_bag_of_subprompts_returns clip prefixes suffixes out :
  encode_bag_of_subprompts clip_text_encode torch_cat clip prefixes suffixes = Ok out ↔
  ∃ conds cat first,
    Forall2 (λ s c, clip_text_encode clip (String.concat "" (prefixes ++ [s])) = [c])
      suffixes conds ∧
    torch_cat (fst <$> conds) = Ok cat ∧
    head conds = Some first ∧
    out = [(cat, snd first)].
Proof.
  unfold encode_bag_of_subprompts. split.
  - destruct (encode_loop _ _ _ _ _) as [conds|] eqn:Hloop; [|done].
    apply encode_loop_returns in Hloop as (new & Hnew & ->).
    cbn [mbind result_bind]. rewrite app_nil_l.
    destruct (torch_cat _) as [cat|] eqn:Hcat; [|done]. cbn [mbind result_bind].
    destruct new as [|first new]; [done|]. cbn.
    intros [= <-]. eauto 10.
  - intros (conds & cat & first & Hnew & Hcat & Hfirst & ->).
    assert (encode_loop clip_text_encode clip prefixes suffixes [] = Ok conds) as ->.
    { apply encode_loop_returns. eauto. }
    cbn [mbind result_bind]. rewrite Hcat. cbn [mbind result_bind].
    destruct conds as [|c conds]; simplify_eq/=. done.
Qed.

Lemma layout_loop_returns st clip (gs rs : strength) i locs positive out :
  layout_loop clip_text_encode torch_cat cond_set_mask st clip gs rs i locs positive = Ok out →
  ∃ extra, out = positive ++ extra ∧ length extra = length locs ∧
    ∀ l, l ∈ locs → suffixes (st l) ≠ [].
Proof.
  revert i positive. induction locs as [|l locs IH]; intros i positive.
  - cbn. intros [= <-]. exists []. rewrite app_nil_r. split_and!; [done..|].
    intros l Hl. by apply elem_of_nil in Hl.
  - cbn [layout_loop].
    destruct (encode_bag_of_subprompts _ _ _ _ _) as [cond|] eqn:Henc; [|done].
    cbn [mbind result_bind].
    destruct (getitem_mask _) as [m|]; [|done]. cbn [mbind result_bind].
    destruct (assert _) as [[]|] eqn:Ha; [|done]. cbn [mbind result_bind].
    apply assert_length_one in Ha as [c Hc]. rewrite Hc.
    intros (extra & -> & Hlen & Hsuf)%IH.
    exists (c :: extra). rewrite <- app_assoc. split_and!; [done|simpl; lia|].
    intros k [-> | Hk]%elem_of_cons; [|by apply Hsuf].
    intros Hnil. rewrite Hnil, encode_bag_of_subprompts_nil in Henc.
    by destruct (torch_cat []).
Qed.

(** X10.  Whenever [layout_cond] returns, the region list was non-empty,
    no listed region had an empty [suffixes] list, the store is the one
    [calc_cond_mask] leaves, and the result is the incoming [positive]
    conditioning, kept in order, followed by exactly one entry per region. *)
Theorem layout_cond_appends_one_per_region st locs clip (gs rs : strength)
    positive st' out :
  layout_cond clip_text_encode torch_cat cond_set_mask st locs clip gs rs positive = Ok (st', out) →
  calc_cond_mask st locs = Ok (st', locs) ∧
  locs ≠ [] ∧
  (∀ l, l ∈ locs → suffixes (st l) ≠ []) ∧
  ∃ extra, out = default [] positive ++ extra ∧ length extra = length locs.
Proof.
  unfold layout_cond. destruct locs as [|g tl]; [done|].
  rewrite calc_cond_mask_cons. cbn [mbind result_bind].
  destruct (layout_loop _ _ _ _ _ _ _ _ _ _) as [out'|] eqn:Hloop; [|done].
  cbn [mbind result_bind]. intros [= <- <-].
  apply layout_loop_returns in Hloop as (extra & -> & Hlen & Hsuf).
  split_and!; [done|done| |by eauto].
  intros l Hl. specialize (Hsuf l Hl).
  by rewrite suffixes_loop_store, suffixes_setitem_mask in Hsuf.
Qed.

Lemma encode_bag_of_subprompts_ok clip enc1 cat1 i r :
  (∀ p, clip_text_encode clip p = [enc1 p]) →
  (∀ ts, ts ≠ [] → torch_cat ts = Ok (cat1 ts)) →
  suffixes r ≠ [] →
  encode_bag_of_subprompts clip_text_encode torch_cat clip
    (region_prefixes i r) (suffixes r) = Ok [region_cond enc1 cat1 i r].
Proof.
  intros Henc Hcat Hs. unfold encode_bag_of_subprompts.
  rewrite (encode_loop_ok _ clip enc1) by done.
  rewrite region_prefixes_retained, app_nil_l. cbn [mbind result_bind].
  destruct (suffixes r) as [|s0 ss] eqn:Hsuf; [done|].
  rewrite Hcat by done. cbn [mbind result_bind].
  unfold region_cond, complete_prompt. rewrite Hsuf.
  rewrite <- list_fmap_compose. done.
Qed.

Lemma layout_loop_ok st clip (gs rs : strength) enc1 cat1 set1 i locs positive :
  (∀ l, l ∈ locs → suffixes (st l) ≠ [] ∧ is_Some (mask (st l))) →
  (∀ p, clip_text_encode clip p = [enc1 p]) →
  (∀ ts, ts ≠ [] → torch_cat ts = Ok (cat1 ts)) →
  (∀ c m s, cond_set_mask [c] m s = [set1 c m s]) →
  layout_loop clip_text_encode torch_cat cond_set_mask st clip gs rs i locs positive =
  Ok (positive ++
      imap (λ j l, set1 (region_cond enc1 cat1 (i + j) (st l)) (mask_of st l)
                     (if bool_decide (i + j = 0)%nat then gs else rs)) locs).
Proof.
  intros Hlocs Henc Hcat Hset. revert i positive.
  induction locs as [|l locs IH]; intros i positive.
  - cbn. by rewrite app_nil_r.
  - cbn [layout_loop imap].
    destruct (Hlocs l) as [Hs [m Hm]]; [by left|].
    assert (mask_of st l = m) as Hmo by (unfold mask_of; by rewrite Hm).
    rewrite (encode_bag_of_subprompts_ok clip enc1 cat1) by done.
    cbn [mbind result_bind]. unfold getitem_mask. rewrite Hm.
    cbn [mbind result_bind]. rewrite Hset. cbn [length].
    rewrite (bool_decide_true (1%nat = 1%nat)) by done.
    unfold assert. cbn [mbind result_bind].
    rewrite IH by (intros k Hk; apply Hlocs; by right).
    rewrite <- app_assoc. cbn [app]. rewrite Nat.add_0_r, Hmo. do 3 f_equal.
    apply imap_ext. intros j k _. unfold compose.
    by replace (S i + j)%nat with (i + S j)%nat by lia.
Qed.

(** X11.  With collaborators that keep their contract (one encoder entry per
    prompt, a concatenation that accepts non-empty lists, one masked entry per
    conditioning entry), [layout_cond] returns on every non-empty list whose
    regions all have suffixes: it appends, in the order of the list, one entry
    per region, made of the region's conditioning, the mask [calc_cond_mask]
    gave it, and [global_strength] for index 0, [region_strength] for the
    others. *)
Theorem layout_cond_entries st locs clip (gs rs : strength) positive
    enc1 cat1 set1 :
  locs ≠ [] →
  (∀ l, l ∈ locs → suffixes (st l) ≠ []) →
  (∀ p, clip_text_encode clip p = [enc1 p]) →
  (∀ ts, ts ≠ [] → torch_cat ts = Ok (cat1 ts)) →
  (∀ c m s, cond_set_mask [c] m s = [set1 c m s]) →
  ∃ st',
    calc_cond_mask st locs = Ok (st', locs) ∧
    layout_cond clip_text_encode torch_cat cond_set_mask st locs clip gs rs positive =
    Ok (st',
        default [] positive ++
        imap (λ i l, set1 (region_cond enc1 cat1 i (st l)) (mask_of st' l)
                       (if bool_decide (i = 0)%nat then gs else rs)) locs).
Proof.
  intros Hne Hsuf Henc Hcat Hset. destruct locs as [|g tl]; [done|].
  eexists. split; [apply calc_cond_mask_cons|].
  unfold layout_cond. rewrite calc_cond_mask_cons. cbn [mbind result_bind].
  set (st' := loop_store _ tl).
  rewrite (layout_loop_ok st' clip gs rs enc1 cat1 set1); [|idtac|done..].
  - cbn [mbind result_bind]. do 3 f_equal. apply imap_ext. intros j l _.
    cbn [Nat.add]. f_equal. unfold region_cond, complete_prompt, retained_prefixes.
    destruct (calc_cond_mask_frame st g tl l) as (_ & Hp & Hs & _).
    fold st' in Hp, Hs. by rewrite Hp, Hs.
  - intros l Hl. destruct (calc_cond_mask_frame st g tl l) as (_ & _ & Hs & _).
    fold st' in Hs. rewrite Hs. split; [by apply Hsuf|].
    unfold st'. destruct (decide (l ∈ tl)) as [Hin | Hout].
    + apply list_elem_of_lookup in Hin as [i Hi].
      destruct (calc_cond_mask_region st g tl i l Hi) as (f & _ & _ & _ & ->). eauto.
    + apply elem_of_cons in Hl as [-> | Hl]; [|done].
      rewrite loop_store_notin, mask_setitem_mask_eq by done. eauto.
Qed.

Lemma layout_loop_ext st1 st2 clip (gs rs : strength) i locs positive :
  (∀ j l, locs !! j = Some l →
     region_prefixes (i + j) (st1 l) = region_prefixes (i + j) (st2 l) ∧
     suffixes (st1 l) = suffixes (st2 l) ∧
     mask (st1 l) = mask (st2 l)) →
  layout_loop clip_text_encode torch_cat cond_set_mask st1 clip gs rs i locs positive =
  layout_loop clip_text_encode torch_cat cond_set_mask st2 clip gs rs i locs positive.
Proof.
  revert i positive. induction locs as [|l locs IH]; intros i positive Hagree; [done|].
  cbn [layout_loop].
  destruct (Hagree 0%nat l) as (Hp & Hs & Hm); [done|].
  rewrite Nat.add_0_r in Hp. rewrite Hp, Hs. unfold getitem_mask. rewrite Hm.
  destruct (encode_bag_of_subprompts _ _ _ _ _); [|done]. cbn [mbind result_bind].
  destruct (mask (st2 l)); [|done]. cbn [mbind result_bind].
  destruct (assert _); [|done]. cbn [mbind result_bind].
  apply IH. intros j k Hk.
  replace (S i + j)%nat with (i + S j)%nat by lia. by apply (Hagree (S j)).
Qed.

(** X12.  What [layout_cond] returns does not depend on the first prefix of
    a non-global region, on the rectangle of the global region, or on the
    masks the regions carry on entry: two stores that agree on everything else
    give the same result. *)
Theorem layout_cond_reads st1 st2 g tl clip (gs rs : strength) positive :
  prefixes (st1 g) = prefixes (st2 g) →
  (∀ l, l ∈ g :: tl → suffixes (st1 l) = suffixes (st2 l)) →
  (∀ l, l ∈ tl →
     rect (st1 l) = rect (st2 l) ∧
     drop 1 (prefixes (st1 l)) = drop 1 (prefixes (st2 l))) →
  returned (layout_cond clip_text_encode torch_cat cond_set_mask st1 (g :: tl)
              clip gs rs positive) =
  returned (layout_cond clip_text_encode torch_cat cond_set_mask st2 (g :: tl)
              clip gs rs positive).
Proof.
  intros Hg Hsuf Htl. unfold layout_cond. rewrite !calc_cond_mask_cons.
  cbn [mbind result_bind].
  rewrite (layout_loop_ext
             (loop_store (setitem_mask st1 g (torch_ones CANVAS_SIZE CANVAS_SIZE)) tl)
             (loop_store (setitem_mask st2 g (torch_ones CANVAS_SIZE CANVAS_SIZE)) tl)).
  { by destruct (layout_loop _ _ _ _ _ _ _ _ _ _). }
  intros j l Hl. cbn [Nat.add].
  destruct (calc_cond_mask_frame st1 g tl l) as (_ & Hp1 & Hs1 & _).
  destruct (calc_cond_mask_frame st2 g tl l) as (_ & Hp2 & Hs2 & _).
  cbn zeta in Hp1, Hs1, Hp2, Hs2.
  split_and!.
  - unfold region_prefixes. rewrite Hp1, Hp2.
    destruct j as [|j]; cbn in Hl.
    + simplify_eq. by rewrite bool_decide_true.
    + rewrite bool_decide_false by done. cbn [negb].
      apply Htl. by eapply list_elem_of_lookup_2.
  - rewrite Hs1, Hs2. apply Hsuf. by eapply list_elem_of_lookup_2.
  - apply calc_cond_mask_covers_only; [|by eapply list_elem_of_lookup_2].
    intros k x y Hk. by destruct (Htl k Hk) as [-> _].
Qed.

End MoreConditioning.

Lemma encode_bag_of_subprompts_asserts_one_entry_witness :
  encode_bag_of_subprompts silent_encode example_cat tt ["g"] ["u"; "v"] =
  Raise AssertionError.
Proof.
  apply (encode_bag_of_subprompts_asserts_one_entry silent_encode example_cat
           tt ["g"] ["u"; "v"] "v").
  - apply (bool_decide_unpack _). by vm_compute.
  - discriminate.
Defined.

Lemma layout_cond_appends_one_per_region_witness :
  calc_cond_mask example_store example_regions =
    Ok (loop_store (setitem_mask example_store 0%nat
                      (torch_ones CANVAS_SIZE CANVAS_SIZE)) [1; 2]%nat,
        example_regions) ∧
  example_regions ≠ [] ∧
  (∀ l, l ∈ example_regions → suffixes (example_store l) ≠ []) ∧
  ∃ extra,
    [(["gs"], "gs", 20); (["pt"], "pt", 80); (["qu"; "qv"], "qu", 80)] =
      default [] None ++ extra ∧
    length extra = length example_regions.
Proof.
  apply (layout_cond_appends_one_per_region example_encode example_cat
           example_set_mask example_store example_regions tt 20 80 None).
  unfold layout_cond, example_regions. rewrite calc_cond_mask_cons.
  by vm_compute.
Defined.

Lemma layout_cond_entries_witness :
  ∃ st',
    calc_cond_mask example_store example_regions = Ok (st', example_regions) ∧
    layout_cond example_encode example_cat example_set_mask example_store
      example_regions tt 20 80 None =
    Ok (st',
        default [] None ++
        imap (λ i l,
                (region_cond example_entry (@concat string) i (example_store l),
                 if bool_decide (i = 0)%nat then 20 else 80))
          example_regions).
Proof.
  apply (layout_cond_entries example_encode example_cat example_set_mask
           example_store example_regions tt 20 80 None
           example_entry (@concat string) (λ c _ s, (c, s))).
  - discriminate.
  - intros l Hl. unfold example_regions in Hl.
    repeat (apply elem_of_cons in Hl as [-> | Hl]; [discriminate|]).
    by apply elem_of_nil in Hl.
  - intros p. reflexivity.
  - intros [|t ts] Hts; [done|reflexivity].
  - intros c m s. reflexivity.
Defined.

Lemma layout_cond_reads_witness :
  returned (layout_cond example_encode example_cat example_set_mask
              example_store [0; 1; 2]%nat tt 20 80 None) =
  returned (layout_cond example_encode example_cat example_set_mask
              retitled_store [0; 1; 2]%nat tt 20 80 None).
Proof.
  apply (layout_cond_reads example_encode example_cat example_set_mask
           example_store retitled_store 0%nat [1; 2]%nat tt 20 80 None).
  - reflexivity.
  - intros l Hl.
    repeat (apply elem_of_cons in Hl as [-> | Hl]; [reflexivity|]).
    by apply elem_of_nil in Hl.
  - intros l Hl.
    repeat (apply elem_of_cons in Hl as [-> | Hl]; [by split|]).
    by apply elem_of_nil in Hl.
Defined.

(** ** The logger and the chat *)

(** X13.  However often [create_logger] is called, the logger keeps the
    handlers it had, or, if it had none, gets the one stdout handler with the
    format; the level is the one of the last call. *)
Theorem create_logger_one_handler (logger : Logger) (levels : list Z) (last : Z) :
  let logger' := foldl (λ lg lv, create_logger lv lg) logger (levels ++ [last]) in
  level logger' = last ∧
  handlers logger' =
    match handlers logger with
    | [] => [mkHandler "sys.stdout"
               (Some "%(asctime)s - %(name)s - %(levelname)s - %(message)s")]
    | _ :: _ => handlers logger
    end.
Proof.
  cbn zeta. rewrite foldl_app. cbn [foldl].
  assert (∀ lv lg, level (create_logger lv lg) = lv) as Hlevel.
  { intros lv lg. unfold create_logger. by case_bool_decide. }
  split; [apply Hlevel|].
  assert (∀ lv lg, handlers (create_logger lv lg) =
            match handlers lg with
            | [] => [mkHandler "sys.stdout"
                       (Some "%(asctime)s - %(name)s - %(levelname)s - %(message)s")]
            | _ :: _ => handlers lg
            end) as Hstep.
  { intros lv lg.
    unfold create_logger, addHandler, setFormatter, StreamHandler, setLevel.
    cbn [handlers level stream].
    case_bool_decide as Hh; cbn [handlers]; [by rewrite Hh|].
    by destruct (handlers lg). }
  rewrite Hstep. clear Hlevel. revert logger.
  induction levels as [|lv levels IH]; intros logger; [done|].
  cbn [foldl]. rewrite IH, Hstep. by destruct (handlers logger).
Qed.

Section ChatFacts.
Context {AutoModelForCausalLM AutoTokenizer token float canvas : Type}.
Variable system_prompt : string.
Variable apply_chat_template : AutoTokenizer → list OmostConversationItem → list token.
Variable generate :
  AutoModelForCausalLM → list token → Z → float → float → bool → list token.
Variable decode : AutoTokenizer → list token → string.
Variable from_bot_response : string → result canvas.
Variable float_ne_zero : float → bool.

Implicit Types (llm : @OmostLLM AutoModelForCausalLM AutoTokenizer)
  (conversation : option (list OmostConversationItem)).

Lemma run_llm_reply llm text max_new_tokens top_p temperature conversation :
  let input_ids :=
    apply_chat_template (tokenizer llm)
      ([mkItem system system_prompt] ++ default [] conversation ++
       [mkItem user text]) in
  let reply :=
    decode (tokenizer llm)
      (drop (length input_ids)
         (generate (model llm) input_ids max_new_tokens temperature top_p
            (float_ne_zero temperature))) in
  run_llm system_prompt apply_chat_template generate decode from_bot_response
    float_ne_zero llm text max_new_tokens top_p temperature conversation =
  (c ← from_bot_response reply;
   Ok (default [] conversation ++ [mkItem user text; mkItem assistant reply], c)).
Proof. reflexivity. Qed.

Lemma dialogue_app (h : list OmostConversationItem) u a :
  dialogue h = true → role u = user → role a = assistant →
  dialogue (h ++ [u; a]) = true.
Proof.
  intros Hh Hu Ha. revert Hh.
  induction h as [h IH] using (induction_ltof1 _ (@length _)). unfold ltof in IH.
  destruct h as [|x [|y h]]; cbn [dialogue app].
  - intros _. by rewrite !bool_decide_true.
  - done.
  - intros [[Hx Hy]%andb_prop Hd]%andb_prop. rewrite Hx, Hy. cbn [andb].
    apply IH; [simpl; lia|done].
Qed.

Lemma dialogue_no_system (h : list OmostConversationItem) :
  dialogue h = true → Forall (λ item, role item ≠ system) h.
Proof.
  induction h as [h IH] using (induction_ltof1 _ (@length _)). unfold ltof in IH.
  destruct h as [|x [|y h]]; cbn [dialogue]; [by constructor|done|].
  intros [[Hx%bool_decide_eq_true Hy%bool_decide_eq_true]%andb_prop Hd]%andb_prop.
  repeat constructor; [congruence..|]. apply IH; [simpl; lia|done].
Qed.

(** X14.  [run_llm] keeps a history made of whole turns: if the history it
    is given consists of user and assistant items in turn, so does the one it
    returns, which is two items longer and holds no system item (the system
    prompt is sent to the model and not recorded). *)
Theorem run_llm_keeps_dialogue llm text max_new_tokens top_p temperature
    conversation output_conversation c :
  dialogue (default [] conversation) = true →
  run_llm system_prompt apply_chat_template generate decode from_bot_response
    float_ne_zero llm text max_new_tokens top_p temperature conversation =
    Ok (output_conversation, c) →
  dialogue output_conversation = true ∧
  length output_conversation = (length (default [] conversation) + 2)%nat ∧
  Forall (λ item, role item ≠ system) output_conversation.
Proof.
  intros Hd. rewrite run_llm_reply. cbn zeta.
  destruct (from_bot_response _); [|done]. cbn [mbind result_bind].
  intros [= <- <-].
  assert (dialogue (default [] conversation ++
            [mkItem user text;
             mkItem assistant (decode (tokenizer llm)
               (drop (length (apply_chat_template (tokenizer llm)
                  ([mkItem system system_prompt] ++ default [] conversation ++
                   [mkItem user text])))
                  (generate (model llm) (apply_chat_template (tokenizer llm)
                  ([mkItem system system_prompt] ++ default [] conversation ++
                   [mkItem user text])) max_new_tokens temperature top_p
                     (float_ne_zero temperature))))]) = true) as Hd'.
  { by apply dialogue_app. }
  split_and!; [done| |by apply dialogue_no_system].
  rewrite length_app. simpl. lia.
Qed.

(** X15.  If the model returns the prompt tokens followed by new tokens, the
    reply that [run_llm] records for the assistant, and parses into the
    canvas, is the decoding of the new tokens only; the prompt it sends is the
    system prompt, the history and the user's text, in this order, and
    sampling is on exactly when the temperature is not 0. *)
Theorem run_llm_decodes_new_tokens llm text max_new_tokens top_p temperature
    conversation (new_ids : list token) :
  let input_ids :=
    apply_chat_template (tokenizer llm)
      ([mkItem system system_prompt] ++ default [] conversation ++
       [mkItem user text]) in
  generate (model llm) input_ids max_new_tokens temperature top_p
    (float_ne_zero temperature) = input_ids ++ new_ids →
  run_llm system_prompt apply_chat_template generate decode from_bot_response
    float_ne_zero llm text max_new_tokens top_p temperature conversation =
  (c ← from_bot_response (decode (tokenizer llm) new_ids);
   Ok (default [] conversation ++
       [mkItem user text; mkItem assistant (decode (tokenizer llm) new_ids)], c)).
Proof.
  intros input_ids Hgen. rewrite run_llm_reply. cbn zeta.
  fold input_ids. by rewrite Hgen, drop_app_length.
Qed.

End ChatFacts.

Lemma run_llm_keeps_dialogue_witness :
  dialogue [mkItem user "hi"; mkItem assistant "canvas"] = true ∧
  length [mkItem user "hi"; mkItem assistant "canvas"] =
    (length (default [] (None : option (list OmostConversationItem))) + 2)%nat ∧
  Forall (λ item, role item ≠ system)
    [mkItem user "hi"; mkItem assistant "canvas"].
Proof.
  apply (run_llm_keeps_dialogue "sys" example_template example_generate
           example_decode example_parse example_ne_zero
           (mkLLM tt tt) "hi" 128 90 60 None
           [mkItem user "hi"; mkItem assistant "canvas"] "canvas").
  - reflexivity.
  - reflexivity.
Defined.

Lemma run_llm_decodes_new_tokens_witness :
  run_llm "sys" example_template example_generate example_decode example_parse
    example_ne_zero (mkLLM tt tt) "hi" 128 90 60 None =
  (c ← example_parse (example_decode tt ["canvas"]);
   Ok (default [] None ++
       [mkItem user "hi"; mkItem assistant (example_decode tt ["canvas"])], c)).
Proof.
  apply (run_llm_decodes_new_tokens "sys" example_template example_generate
           example_decode example_parse example_ne_zero
           (mkLLM tt tt) "hi" 128 90 60 None ["canvas"]).
  reflexivity.
Defined.

(** * The call on the values [load_canvas] delivers *)

Section Loaded.
Implicit Types (v rect canvas_cond global_cond : json)
  (canvas_conds tl : list json) (canvas_state : Tensor) (e : exn).

Lemma slice_index_bound default v :
  is_bound v = true → ∃ n, slice_index default v = Ok n.
Proof. destruct v; try done; eauto. Qed.

Lemma slice_index_refused default v :
  is_bound v = false → slice_index default v = Raise TypeError.
Proof. by destruct v. Qed.

Lemma bind_raise {A B} (x : exn) (k : A → result B) :
  (Raise x ≫= k) = Raise x.
Proof. done. Qed.

Lemma bind_ok {A B} (a : A) (k : A → result B) : (Ok a ≫= k) = k a.
Proof. done. Qed.

(** Four items that are not all bounds are refused by the slicing. *)
Lemma slicing_refused canvas_state canvas_cond a b c d :
  is_bound a && is_bound b && is_bound c && is_bound d = false →
  (a' ← slice_index 0 a;
   b' ← slice_index (Z.of_nat CANVAS_SIZE) b;
   c' ← slice_index 0 c;
   d' ← slice_index (Z.of_nat CANVAS_SIZE) d;
   let mask := setitem_slice (torch_zeros CANVAS_SIZE CANVAS_SIZE) a' b' c' d' 1 in
   let mask := mul mask (rsub 1 canvas_state) in
   let canvas_state := add canvas_state mask in
   canvas_cond ← setitem_mask_json canvas_cond mask;
   Ok (canvas_cond, canvas_state)) = Raise TypeError.
Proof.
  intros Hb.
  destruct (is_bound a) eqn:Ha; [|by rewrite (slice_index_refused 0 a)].
  destruct (slice_index_bound 0 a Ha) as [a' ->]. rewrite bind_ok.
  destruct (is_bound b) eqn:Hbb;
    [|by rewrite (slice_index_refused (Z.of_nat CANVAS_SIZE) b)].
  destruct (slice_index_bound (Z.of_nat CANVAS_SIZE) b Hbb) as [b' ->]. rewrite bind_ok.
  destruct (is_bound c) eqn:Hc; [|by rewrite (slice_index_refused 0 c)].
  destruct (slice_index_bound 0 c Hc) as [c' ->]. rewrite bind_ok.
  destruct (is_bound d) eqn:Hd;
    [done|by rewrite (slice_index_refused (Z.of_nat CANVAS_SIZE) d)].
Qed.

Lemma mask_step_json_returns canvas_state canvas_cond :
  has_four_bounds canvas_cond = true →
  ∃ members m canvas_state',
    canvas_cond = JObject members ∧
    mask_step_json canvas_state canvas_cond =
      Ok (mkMasked members m, canvas_state').
Proof.
  unfold has_four_bounds, mask_step_json.
  destruct canvas_cond as [| | | | | |members]; try done.
  cbn [getitem]. destruct (dict_get "rect" members) as [rect|]; [|done].
  destruct rect as [| | | | |[|a [|b [|c [|d [|??]]]]]|]; try done.
  intros [[[Ha Hb]%andb_prop Hc]%andb_prop Hd]%andb_prop.
  rewrite bind_ok. unfold unpack4. cbn [iter_items]. rewrite !bind_ok.
  destruct (slice_index_bound 0 a Ha) as [a' ->]. rewrite bind_ok.
  destruct (slice_index_bound (Z.of_nat CANVAS_SIZE) b Hb) as [b' ->]. rewrite bind_ok.
  destruct (slice_index_bound 0 c Hc) as [c' ->]. rewrite bind_ok.
  destruct (slice_index_bound (Z.of_nat CANVAS_SIZE) d Hd) as [d' ->]. rewrite bind_ok.
  cbn [setitem_mask_json]. rewrite bind_ok. eauto.
Qed.

Lemma unpack4_strings (l : list string) (k : json * json * json * json → result (MaskedRegion * Tensor)) :
  (∀ a b c d, k (JString a, JString b, JString c, JString d) = Raise TypeError) →
  ∃ e, ((match JString <$> l with
         | [a; b; c; d] => Ok (a, b, c, d)
         | _ => Raise ValueError
         end) ≫= k) = Raise e ∧ unchecked e.
Proof.
  intros Hk. unfold unchecked.
  destruct l as [|a [|b [|c [|d [|??]]]]]; cbn [fmap list_fmap];
    rewrite ?bind_raise, ?bind_ok, ?Hk; eauto.
Qed.

Lemma mask_step_json_raises canvas_state canvas_cond :
  has_four_bounds canvas_cond = false →
  ∃ e, mask_step_json canvas_state canvas_cond = Raise e ∧ unchecked e.
Proof.
  unfold has_four_bounds, mask_step_json, unchecked.
  destruct canvas_cond as [| | | | | |members]; try (cbn; by eauto).
  cbn [getitem]. destruct (dict_get "rect" members) as [rect|]; [|cbn; by eauto].
  rewrite bind_ok. unfold unpack4.
  destruct rect as [| | | |s|items|keys]; try (cbn; by eauto); cbn [iter_items];
    rewrite bind_ok.
  - intros _. apply unpack4_strings. intros a b c d. by apply slicing_refused.
  - destruct items as [|a [|b [|c [|d [|??]]]]]; try (cbn; by eauto).
    intros Hb. rewrite bind_ok. exists TypeError. split; [|by eauto].
    by apply slicing_refused.
  - intros _. apply unpack4_strings. intros a b c d. by apply slicing_refused.
Qed.

Lemma mask_loop_json_returns canvas_state canvas_conds :
  Forall (λ r, has_four_bounds r = true) canvas_conds →
  ∃ out, mask_loop_json canvas_state canvas_conds = Ok out ∧
    length out = length canvas_conds.
Proof.
  intros Hall. revert canvas_state.
  induction Hall as [|r rs Hr _ IH]; intros canvas_state; [by exists []|].
  cbn [mask_loop_json].
  destruct (mask_step_json_returns canvas_state r Hr) as (ms & m & st' & _ & ->).
  rewrite bind_ok. destruct (IH st') as (out & -> & Hlen). rewrite bind_ok.
  eexists. split; [done|]. simpl. by rewrite Hlen.
Qed.

Lemma mask_loop_json_raises canvas_state canvas_conds :
  ¬ Forall (λ r, has_four_bounds r = true) canvas_conds →
  ∃ e, mask_loop_json canvas_state canvas_conds = Raise e ∧ unchecked e.
Proof.
  revert canvas_state.
  induction canvas_conds as [|r rs IH]; intros canvas_state Hnot.
  { destruct Hnot. constructor. }
  cbn [mask_loop_json]. destruct (has_four_bounds r) eqn:Hr.
  - destruct (mask_step_json_returns canvas_state r Hr) as (ms & m & st' & _ & ->).
    rewrite bind_ok. destruct (IH st') as (e & -> & He); [|by eauto].
    intros Hrs. apply Hnot. by constructor.
  - destruct (mask_step_json_raises canvas_state r Hr) as (e & -> & He). eauto.
Qed.

Lemma mask_step_json_tabulate (s : nat → nat → Z) canvas_cond :
  has_four_bounds canvas_cond = true →
  mask_step_json (tabulate s) canvas_cond =
  Ok (mkMasked (members_of canvas_cond)
        (tabulate (λ x y,
           (if covers (bounds_of canvas_cond) x y then 1 else 0) * (1 - s x y))),
      tabulate (λ x y,
        s x y + (if covers (bounds_of canvas_cond) x y then 1 else 0) * (1 - s x y))).
Proof.
  unfold has_four_bounds, mask_step_json, bounds_of, bound_value.
  destruct canvas_cond as [| | | | | |members]; try done.
  cbn [getitem members_of]. destruct (dict_get "rect" members) as [rect|]; [|done].
  destruct rect as [| | | | |[|a [|b [|c [|d [|??]]]]]|]; try done.
  intros [[[Ha Hb]%andb_prop Hc]%andb_prop Hd]%andb_prop.
  rewrite bind_ok. unfold unpack4. cbn [iter_items]. rewrite !bind_ok.
  destruct (slice_index_bound 0 a Ha) as [a' ->]. rewrite bind_ok.
  destruct (slice_index_bound (Z.of_nat CANVAS_SIZE) b Hb) as [b' ->]. rewrite bind_ok.
  destruct (slice_index_bound 0 c Hc) as [c' ->]. rewrite bind_ok.
  destruct (slice_index_bound (Z.of_nat CANVAS_SIZE) d Hd) as [d' ->]. rewrite bind_ok.
  cbn [setitem_mask_json]. rewrite bind_ok.
  by rewrite torch_zeros_tabulate, setitem_slice_tabulate, rsub_tabulate,
    mul_tabulate, add_tabulate.
Qed.

Lemma mask_loop_json_processed (before : list Rect) canvas_conds :
  Forall (λ r, has_four_bounds r = true) canvas_conds →
  mask_loop_json (tabulate (occupancy before)) canvas_conds =
  Ok (processed_regions before canvas_conds).
Proof.
  intros Hall. revert before.
  induction Hall as [|r rs Hr _ IH]; intros before; [done|].
  cbn [mask_loop_json processed_regions].
  rewrite mask_step_json_tabulate by done. rewrite bind_ok.
  assert (tabulate (λ x y,
            occupancy before x y +
            (if covers (bounds_of r) x y then 1 else 0) *
            (1 - occupancy before x y)) =
          tabulate (occupancy (bounds_of r :: before))) as ->.
  { apply tabulate_ext. intros x y _ _. unfold occupancy.
    cbn [claimed existsb]. fold (claimed before x y).
    by destruct (covers _ x y), (claimed _ x y). }
  rewrite IH, bind_ok. do 3 f_equal. apply tabulate_ext. intros x y _ _.
  unfold region_mask, occupancy.
  by destruct (covers _ x y), (claimed _ x y).
Qed.

Lemma processed_regions_app (before : list Rect) (ps qs : list json) :
  processed_regions before (ps ++ qs) =
  processed_regions before ps ++
  processed_regions (reverse (bounds_of <$> ps) ++ before) qs.
Proof.
  revert before. induction ps as [|p ps IH]; intros before; [done|].
  cbn [app processed_regions]. rewrite IH. f_equal.
  rewrite fmap_cons, reverse_cons, <- app_assoc. done.
Qed.

Lemma processed_regions_reverse (later : list Rect) canvas_conds :
  processed_regions later (reverse canvas_conds) =
  reverse (masked_regions later canvas_conds).
Proof.
  induction canvas_conds as [|r rs IH]; [done|].
  cbn [masked_regions]. rewrite !reverse_cons, processed_regions_app, IH.
  by rewrite fmap_reverse, reverse_involutive.
Qed.

(** What the call returns when every region can be processed. *)
Lemma calc_cond_mask_json_returns global_cond tl :
  is_dict global_cond = true →
  Forall (λ r, has_four_bounds r = true) tl →
  calc_cond_mask_json (global_cond :: tl) =
  Ok (mkMasked (members_of global_cond) (torch_ones CANVAS_SIZE CANVAS_SIZE)
      :: masked_regions [] tl).
Proof.
  intros Hg Htl. unfold calc_cond_mask_json.
  destruct global_cond as [| | | | | |members]; try done.
  cbn [length drop setitem_mask_json members_of].
  rewrite bool_decide_true by lia. unfold assert. rewrite !bind_ok.
  rewrite torch_zeros_tabulate.
  change (tabulate (λ _ _ : nat, 0)) with (tabulate (occupancy [])).
  rewrite mask_loop_json_processed by (by apply Forall_reverse).
  by rewrite bind_ok, processed_regions_reverse, reverse_involutive.
Qed.

Lemma calc_cond_mask_json_raises global_cond tl :
  ¬ (is_dict global_cond = true ∧ Forall (λ r, has_four_bounds r = true) tl) →
  ∃ e, calc_cond_mask_json (global_cond :: tl) = Raise e ∧ unchecked e.
Proof.
  intros Hnot. unfold calc_cond_mask_json. cbn [length drop].
  rewrite bool_decide_true by lia. unfold assert. rewrite bind_ok.
  destruct global_cond as [| | | | | |members];
    try (exists TypeError; split; [done|unfold unchecked; by eauto]).
  cbn [setitem_mask_json]. rewrite bind_ok.
  destruct (mask_loop_json_raises (torch_zeros CANVAS_SIZE CANVAS_SIZE) (reverse tl))
    as (e & He & Hun).
  { intros Hall%Forall_reverse. rewrite reverse_involutive in Hall. by apply Hnot. }
  exists e. split; [|done]. cbn zeta. by rewrite drop_0, He.
Qed.


Lemma length_masked_regions later tl :
  length (masked_regions later tl) = length tl.
Proof. induction tl; simpl; congruence. Qed.


Lemma masked_regions_lookup later tl i r :
  tl !! i = Some r →
  masked_regions later tl !! i =
  Some (mkMasked (members_of r)
          (tabulate (region_mask (bounds_of r)
                       ((bounds_of <$> drop (S i) tl) ++ later)))).
Proof.
  revert i. induction tl as [|r' tl IH]; intros i Hi; [done|].
  destruct i as [|i]; simplify_eq/=; [done|]. by apply IH.
Qed.

Lemma rects_bounds_store global_cond tl k :
  rects (bounds_store (global_cond :: tl)) (seq (S k) (length tl - k)) =
  bounds_of <$> drop k tl.
Proof.
  apply list_eq. intros i. unfold rects.
  rewrite !list_lookup_fmap, lookup_drop.
  destruct (decide (i < length tl - k)%nat) as [Hi | Hi].
  - rewrite lookup_seq_lt by done.
    destruct (lookup_lt_is_Some_2 tl (k + i)%nat) as [r Hr]; [lia|].
    rewrite Hr. cbn [fmap option_fmap option_map]. f_equal.
    unfold bounds_store. cbn [rect].
    change ((global_cond :: tl) !! (S k + i)%nat) with (tl !! (k + i)%nat).
    by rewrite Hr.
  - rewrite lookup_seq_ge by lia. by rewrite lookup_ge_None_2 by lia.
Qed.

(** On the regions it can process, the call on the loaded values assigns
    the masks that [calc_cond_mask] assigns to regions with the same bounds,
    each an object of its own. *)
Lemma calc_cond_mask_json_agrees canvas_conds out :
  calc_cond_mask_json canvas_conds = Ok out →
  ∃ st',
    calc_cond_mask (bounds_store canvas_conds) (seq 0 (length canvas_conds)) =
      Ok (st', seq 0 (length canvas_conds)) ∧
    ∀ i m, out !! i = Some m → mask (st' i) = Some (assigned_mask m).
Proof.
  intros Hout. destruct canvas_conds as [|g tl]; [done|].
  destruct (decide (is_dict g = true ∧ Forall (λ r, has_four_bounds r = true) tl))
    as [[Hg Htl] | Hnot].
  2: { destruct (calc_cond_mask_json_raises g tl Hnot) as (e & He & _). congruence. }
  rewrite calc_cond_mask_json_returns in Hout by done. injection Hout as <-.
  cbn [length seq]. eexists. split; [apply calc_cond_mask_cons|].
  intros [|i] m Hm.
  - injection Hm as <-. cbn [assigned_mask].
    rewrite loop_store_notin, mask_setitem_mask_eq; [done|].
    intros Hin%elem_of_seq. lia.
  - rewrite lookup_cons in Hm. cbn iota in Hm.
    apply lookup_lt_Some in Hm as Hi. rewrite length_masked_regions in Hi.
    destruct (lookup_lt_is_Some_2 tl i Hi) as [r Hr].
    rewrite (masked_regions_lookup [] tl i r Hr) in Hm. injection Hm as <-.
    cbn [assigned_mask]. rewrite app_nil_r.
    rewrite (calc_cond_mask_region_NoDup _ 0%nat (seq 1 (length tl)) i (S i)).
    + rewrite drop_seq. rewrite rects_bounds_store by lia.
      unfold bounds_store at 1. cbn [rect].
      change ((g :: tl) !! S i) with (tl !! i). by rewrite Hr.
    + apply NoDup_seq.
    + by rewrite lookup_seq_lt.
Qed.

End Loaded.


(** A region without the key [rect], and a bound that is a float. *)
Example calc_cond_mask_json_no_rect :
  calc_cond_mask_json
    [json_region (json_ints 0 90 0 90); JObject [("prefixes", JArray [])]] =
  Raise KeyError.
Proof. reflexivity. Qed.

Example calc_cond_mask_json_float_bound :
  calc_cond_mask_json
    [json_region (json_ints 0 90 0 90);
     json_region (JArray [JInt 0; JFloat "45.5"; JInt 0; JInt 90])] =
  Raise TypeError.
Proof. reflexivity. Qed.

(** Four integers far outside the canvas are processed. *)
Example calc_cond_mask_json_any_integers :
  ∃ out,
    calc_cond_mask_json
      [json_region (json_ints 0 0 0 0); json_region (json_ints (-500) 700 95 (-3))] =
    Ok out ∧
    length out = 2%nat.
Proof.
  eexists. split.
  - apply calc_cond_mask_json_returns; [done|]. by repeat constructor.
  - reflexivity.
Qed.
